(** * alchemy-web3: the dispatch layer of [src/index.ts]

    A shallow embedding of the functions of [src/index.ts] and the
    properties the specification states about them:

    - [fixArrayQueryParams], [toArrayKey], [endsWith]: the REST parameter
      encoding;
    - [patchSubscriptions], [suppressNoSubscriptionExistsWarning] and the
      patched [_validateArgs]: the subscription adapter;
    - [fillInConfigDefaults], [getWindowProvider]: configuration defaults;
    - [callAlchemyJsonRpcMethod], [callAlchemyRestEndpoint]: the
      promise/callback bridge;
    - [processTokenBalanceResponse];
    - the [setProvider] override installed by [createAlchemyWeb3].

    JavaScript values are an inductive type, objects are lists of own
    properties in the order [Object.keys] enumerates them, strings are
    sequences of code units, and code with side effects passes its state
    explicitly and returns a completion (a normal value or a thrown one).
    Promises run on a small event loop with a queue of jobs.

    Two parts of the dispatch layer live in other files of the repository:
    [callWhenDone] ([util/promises]) and the retry loop of the JSON-RPC
    sender ([util/jsonRpc]).  Each is modelled from the specification and
    marked so where it is defined. *)

From Stdlib Require Import String Ascii List ZArith NArith Bool Lia Arith.
Import ListNotations.

Local Open Scope string_scope.
Local Open Scope list_scope.

(* ================================================================== *)
(** * JavaScript values and objects *)
(* ================================================================== *)

Module Js.

(** A JavaScript value.  Numbers are the integers (the records handled here
    carry no fractions); an array is the list of its elements; an object is
    the list of its own enumerable string-keyed data properties, in the order
    [Object.keys] gives them.  Inherited properties and accessors are not
    part of the model. *)
#[warnings="-register-all"]
Inductive value : Type :=
| VUndefined : value
| VNull : value
| VBool : bool -> value
| VNum : Z -> value
| VStr : string -> value
| VArr : list value -> value
| VObj : list (string * value) -> value.

Definition Obj : Type := list (string * value).

(** [Array.isArray]. *)
Definition isArray (v : value) : bool :=
  match v with
  | VArr _ => true
  | _ => false
  end.

(** [v != null]: neither [null] nor [undefined]. *)
Definition notNullish (v : value) : bool :=
  match v with
  | VUndefined | VNull => false
  | _ => true
  end.

(** [Object.keys]. *)
Definition keys (o : Obj) : list string := map fst o.

(** [o[k]]: the value of the own property, [undefined] when there is none. *)
Fixpoint get (o : Obj) (k : string) : value :=
  match o with
  | [] => VUndefined
  | (k', v) :: o' => if String.eqb k' k then v else get o' k
  end.

(** [k in o], for own properties. *)
Fixpoint has (o : Obj) (k : string) : bool :=
  match o with
  | [] => false
  | (k', _) :: o' => String.eqb k' k || has o' k
  end.

(** ** Property order

    An ordinary object enumerates the keys that are array indices first, in
    ascending numeric order, then the other string keys in the order they were
    created.  An array index is a canonical decimal numeral below 2^32 - 1. *)

Definition digit_of (c : ascii) : option N :=
  let n := N_of_ascii c in
  if ((48 <=? n) && (n <=? 57))%N then Some (n - 48)%N else None.

Fixpoint parse_digits (s : string) (acc : N) : option N :=
  match s with
  | EmptyString => Some acc
  | String c s' =>
      match digit_of c with
      | Some d => parse_digits s' (10 * acc + d)%N
      | None => None
      end
  end.

(** The weight of the decimal place [k]. *)
Fixpoint pow10 (k : nat) : N :=
  match k with
  | O => 1%N
  | S k' => (10 * pow10 k')%N
  end.

Definition array_index (k : string) : option N :=
  match k with
  | EmptyString => None
  | String c rest =>
      match digit_of c with
      | None => None
      | Some d =>
          if (d =? 0)%N then
            match rest with
            | EmptyString => Some 0%N
            | _ => None
            end
          else
            match parse_digits rest d with
            | Some n => if (n <? 2 ^ 32 - 1)%N then Some n else None
            | None => None
            end
      end
  end.

(** [k] may come before [k'] in the enumeration. *)
Definition precedes (k k' : string) : Prop :=
  match array_index k, array_index k' with
  | Some n, Some m => (n < m)%N
  | Some _, None => True
  | None, Some _ => False
  | None, None => True
  end.

(** The keys of an object: no key twice, array indices first and
    ascending. *)
Inductive ordered_keys : list string -> Prop :=
| ordered_nil : ordered_keys []
| ordered_cons k ks :
    ~ In k ks ->
    (forall k', In k' ks -> precedes k k') ->
    ordered_keys ks ->
    ordered_keys (k :: ks).

Definition well_formed (o : list (string * value)) : Prop :=
  ordered_keys (map fst o).

(** Overwrite the value of an existing property; its place is kept. *)
Fixpoint update (o : Obj) (k : string) (v : value) : Obj :=
  match o with
  | [] => []
  | (k', v') :: o' =>
      if String.eqb k' k then (k', v) :: o' else (k', v') :: update o' k v
  end.

(** Create a property whose key is the array index [n]: it goes after the
    array indices below [n]. *)
Fixpoint insert_index (o : Obj) (n : N) (k : string) (v : value) : Obj :=
  match o with
  | [] => [(k, v)]
  | (k', v') :: o' =>
      match array_index k' with
      | Some m =>
          if (m <? n)%N then (k', v') :: insert_index o' n k v
          else (k, v) :: o
      | None => (k, v) :: o
      end
  end.

(** Create a property that the object does not have yet. *)
Definition create (o : Obj) (k : string) (v : value) : Obj :=
  match array_index k with
  | Some n => insert_index o n k v
  | None => o ++ [(k, v)]
  end.

(** [o[k] = v]. *)
Definition set (o : Obj) (k : string) (v : value) : Obj :=
  if has o k then update o k v else create o k v.

(** [{...o, k: v}]: the copy has the own properties of [o] in the order of
    [o]; then comes the assignment. *)
Definition spread_with (o : Obj) (k : string) (v : value) : Obj :=
  set o k v.

(** [new Error(message)]. *)
Definition Error (message : string) : value :=
  VObj [("name", VStr "Error"); ("message", VStr message)].

(** How a call ends: with a value, or with a thrown value. *)
Inductive completion (A : Type) : Type :=
| Normal : A -> completion A
| Throw : value -> completion A.

Arguments Normal {A} _.
Arguments Throw {A} _.

(** Truthiness, as [||] and [if] test it. *)
Definition truthy (v : value) : bool :=
  match v with
  | VUndefined | VNull => false
  | VBool b => b
  | VNum n => negb (Z.eqb n 0)
  | VStr s => negb (String.eqb s "")
  | VArr _ | VObj _ => true
  end.

(** [a || b]. *)
Definition or_else (a b : value) : value :=
  if truthy a then a else b.

End Js.

Import Js.

(* ================================================================== *)
(** * Strings: [endsWith] *)
(* ================================================================== *)

(** [s.lastIndexOf(ending)] scanning from position [pos] of the whole string:
    the largest index at which [ending] occurs, [None] for JavaScript's -1.
    The empty [ending] occurs at every index, the length included. *)
Fixpoint lastIndexOf_from (s ending : string) (pos : nat) : option nat :=
  match s with
  | EmptyString => if String.prefix ending EmptyString then Some pos else None
  | String _ s' =>
      match lastIndexOf_from s' ending (S pos) with
      | Some i => Some i
      | None => if String.prefix ending s then Some pos else None
      end
  end.

Definition lastIndexOf (s ending : string) : Z :=
  match lastIndexOf_from s ending 0 with
  | Some i => Z.of_nat i
  | None => (-1)%Z
  end.

(** [endsWith] of the source. *)
Definition endsWith (s ending : string) : bool :=
  let index := lastIndexOf s ending in
  (0 <=? index)%Z
  && (index =? Z.of_nat (String.length s) - Z.of_nat (String.length ending))%Z.

Definition toArrayKey (key : string) : string :=
  if endsWith key "[]" then key else (key ++ "[]")%string.

(** [fixArrayQueryParams]: the choice of [fixedKey], then the loop over
    [Object.keys(params)]. *)
Definition fixedKeyOf (key : string) (value : value) : string :=
  if isArray value then toArrayKey key else key.

(** The body of the [forEach] callback, acting on [result]. *)
Definition assignFixed (params result : Obj) (key : string) : Obj :=
  let value := get params key in
  let fixedKey := fixedKeyOf key value in
  set result fixedKey value.

Definition fixArrayQueryParams (params : Obj) : Obj :=
  fold_left (assignFixed params) (keys params) [].

(** Every key of the object is the key the encoding gives it. *)
Definition encoded (o : Obj) : Prop :=
  forall k v, In (k, v) o -> fixedKeyOf k v = k.

(** The record [{ids: [1, 2, 3], x: 1}] and its encoding. *)
Definition ids_record : Obj :=
  [("ids", VArr [VNum 1; VNum 2; VNum 3]); ("x", VNum 1)].

Definition ids_encoded : Obj :=
  [("ids[]", VArr [VNum 1; VNum 2; VNum 3]); ("x", VNum 1)].

(** The record [{a: [1], "a[]": 2}]: both keys are encoded to [a[]]. *)
Definition clash_record : Obj :=
  [("a", VArr [VNum 1]); ("a[]", VNum 2)].

(** No two keys of the record are encoded to one key. *)
Definition collision_free (params : Obj) : Prop :=
  forall k1 k2,
    In k1 (keys params) -> In k2 (keys params) ->
    fixedKeyOf k1 (get params k1) = fixedKeyOf k2 (get params k2) ->
    k1 = k2.


(* ================================================================== *)
(** * The subscription adapter *)
(* ================================================================== *)

Module Subscriptions.

(** [haystack.includes(needle)] on strings. *)
Fixpoint str_includes (haystack needle : string) : bool :=
  match haystack with
  | EmptyString => String.prefix needle EmptyString
  | String _ rest => String.prefix needle haystack || str_includes rest needle
  end.

(** [list.includes(x)] on an array of strings. *)
Definition includes (l : list string) (x : string) : bool :=
  existsb (String.eqb x) l.

(** A function that [console.warn] may hold: one this module did not make
    (told apart by a number), or the closure that
    [suppressNoSubscriptionExistsWarning] builds around the function it
    found. *)
Inductive WarnFn : Type :=
| HostWarn : nat -> WarnFn
| Suppressing : WarnFn -> WarnFn.

(** The state the subscription code runs in: the global [console.warn] and
    everything else ([S]). *)
Record World (S : Type) : Type := mkWorld {
  console_warn : WarnFn;
  host : S
}.

Arguments mkWorld {S} _ _.
Arguments console_warn {S} _.
Arguments host {S} _.

Definition set_console_warn {S} (w : World S) (fn : WarnFn) : World S :=
  mkWorld fn (host w).

(** A piece of code run for its effect on the world. *)
Definition Code (S A : Type) : Type := World S -> completion A * World S.

(** The test of the closure:
    [typeof args[0] === "string" && args[0].includes(...)]. *)
Definition no_subscription_text : string :=
  " doesn't exist. Subscribing anyway.".

Definition isNoSubscriptionWarning (args : list value) : bool :=
  match args with
  | VStr s :: _ => str_includes s no_subscription_text
  | _ => false
  end.

(** Calling a warn function with [args]. *)
Fixpoint call_warn {S} (host_warn : nat -> list value -> Code S value)
    (fn : WarnFn) (args : list value) : Code S value :=
  match fn with
  | HostWarn id => host_warn id args
  | Suppressing oldConsoleWarn =>
      fun w =>
        if isNoSubscriptionWarning args then (Normal VUndefined, w)
        else call_warn host_warn oldConsoleWarn args w
  end.

(** [suppressNoSubscriptionExistsWarning]: [try { return f(); } finally
    { console.warn = oldConsoleWarn; }]. *)
Definition suppressNoSubscriptionExistsWarning {S T} (f : Code S T) : Code S T :=
  fun w =>
    let oldConsoleWarn := console_warn w in
    let w1 := set_console_warn w (Suppressing oldConsoleWarn) in
    let (result, w2) := f w1 in
    (result, set_console_warn w2 oldConsoleWarn).

(** The [eth.subscribe] that [patchSubscriptions] installs, over the
    [oldSubscribe] it found. *)
Definition subscribe {S H}
    (oldSubscribe : string -> list value -> Code S H)
    (type : string) (rest : list value) : Code S H :=
  if String.eqb type "alchemy_fullPendingTransactions"
     || String.eqb type "alchemy_newFullPendingTransactions"
  then
    suppressNoSubscriptionExistsWarning
      (oldSubscribe "alchemy_newFullPendingTransactions" rest)
  else if String.eqb type "alchemy_filteredNewFullPendingTransactions"
          || String.eqb type "alchemy_filteredPendingTransactions"
          || String.eqb type "alchemy_filteredFullPendingTransactions"
  then
    suppressNoSubscriptionExistsWarning
      (oldSubscribe "alchemy_filteredNewFullPendingTransactions" rest)
  else oldSubscribe type rest.

(** The alias table as the specification words it: public names and the wire
    name each stands for; a name the table lacks is its own wire name. *)
Definition alias_table : list (string * string) :=
  [ ("alchemy_fullPendingTransactions", "alchemy_newFullPendingTransactions");
    ("alchemy_newFullPendingTransactions", "alchemy_newFullPendingTransactions");
    ("alchemy_filteredNewFullPendingTransactions",
     "alchemy_filteredNewFullPendingTransactions");
    ("alchemy_filteredPendingTransactions",
     "alchemy_filteredNewFullPendingTransactions");
    ("alchemy_filteredFullPendingTransactions",
     "alchemy_filteredNewFullPendingTransactions") ].

Fixpoint lookup_alias (table : list (string * string)) (type : string)
  : option string :=
  match table with
  | [] => None
  | (public, wire) :: table' =>
      if String.eqb public type then Some wire else lookup_alias table' type
  end.

Definition wireName (type : string) : string :=
  match lookup_alias alias_table type with
  | Some wire => wire
  | None => type
  end.

(** A record of the calls that reach the underlying subscribe, kept beside
    the host state where the underlying code cannot touch it. *)
Definition Calls : Type := list (string * list value).

Definition recording {S H}
    (underlying : string -> list value -> Code S H)
    (type : string) (rest : list value) : Code (S * Calls) H :=
  fun w =>
    let (result, w') :=
      underlying type rest (mkWorld (console_warn w) (fst (host w))) in
    (result,
     mkWorld (console_warn w') (host w', snd (host w) ++ [(type, rest)])).

(** ** The patched [_validateArgs]

    A web3 [Subscription] object as far as the patch reads and writes it:
    [subscriptionMethod], [options.subscription] (an object, or left
    undefined), and the rest of its state. *)
Record Subscription (X : Type) : Type := mkSubscription {
  subscriptionMethod : string;
  options_subscription : option Obj;
  sub_state : X
}.

Arguments mkSubscription {X} _ _ _.
Arguments subscriptionMethod {X} _.
Arguments options_subscription {X} _.
Arguments sub_state {X} _.

(** A method of the subscription object: it may change [this] and may
    throw. *)
Definition Method (X : Type) : Type :=
  Subscription X -> list value -> completion unit * Subscription X.

Definition filtered_names : list string :=
  [ "alchemy_filteredNewFullPendingTransactions";
    "alchemy_filteredPendingTransactions";
    "alchemy_filteredFullPendingTransactions" ].

Definition full_names : list string :=
  [ "alchemy_fullPendingTransactions";
    "alchemy_newFullPendingTransactions" ].

(** [this.options.subscription.subscriptionName = this.subscriptionMethod],
    under [if (this.options.subscription)]. *)
Definition recordSubscriptionName {X} (this : Subscription X) : Subscription X :=
  match options_subscription this with
  | Some subscription =>
      mkSubscription (subscriptionMethod this)
        (Some (set subscription "subscriptionName"
                 (VStr (subscriptionMethod this))))
        (sub_state this)
  | None => this
  end.

Definition validateArgs {X}
    (oldSubscriptionPrototypeValidateArgs : Method X) : Method X :=
  fun this args =>
    if includes filtered_names (subscriptionMethod this) then
      (Normal tt, this)
    else
      let this1 :=
        if includes full_names (subscriptionMethod this)
        then recordSubscriptionName this
        else this in
      oldSubscriptionPrototypeValidateArgs this1 args.

(** [console.warn] after [n] calls of
    [suppressNoSubscriptionExistsWarning] have each wrapped what they
    found, [base] being the function the outermost call found. *)
Fixpoint layers (n : nat) (base : WarnFn) : WarnFn :=
  match n with
  | O => base
  | S n' => Suppressing (layers n' base)
  end.

(** The public names the patched [subscribe] rewrites. *)
Definition public_names : list string := map fst alias_table.

(** [n] calls of [suppressNoSubscriptionExistsWarning], one inside the
    other, around [f]. *)
Fixpoint nested {St T} (n : nat) (f : Code St T) : Code St T :=
  match n with
  | O => f
  | S n' => suppressNoSubscriptionExistsWarning (nested n' f)
  end.

(** Code that calls [console.warn(...args)] and then goes on as [k]; what
    [console.warn] throws ends it. *)
Definition warning_then {St T}
    (host_warn : nat -> list value -> Code St value)
    (args : list value) (k : Code St T) : Code St T :=
  fun w =>
    match call_warn host_warn (console_warn w) args w with
    | (Normal _, w1) => k w1
    | (Throw e, w1) => (Throw e, w1)
    end.

End Subscriptions.

(* ================================================================== *)
(** * Configuration defaults *)
(* ================================================================== *)

Module Config.

Definition DEFAULT_MAX_RETRIES : Z := 3.
Definition DEFAULT_RETRY_INTERVAL : Z := 1000.
Definition DEFAULT_RETRY_JITTER : Z := 250.

(** What a [Provider | null | undefined] slot holds. *)
Inductive provider_ref (Provider : Type) : Type :=
| PUndefined : provider_ref Provider
| PNull : provider_ref Provider
| PProvider : Provider -> provider_ref Provider.

Arguments PUndefined {Provider}.
Arguments PNull {Provider}.
Arguments PProvider {Provider} _.

(** The global [window] when there is one; [ethereum] is whatever the
    environment injected, [undefined] included. *)
Record EthereumWindow (Provider : Type) : Type := mkWindow {
  ethereum : provider_ref Provider
}.

Arguments mkWindow {Provider} _.
Arguments ethereum {Provider} _.

(** [AlchemyWeb3Config]: every field is optional; [None] (and
    [PUndefined]) is a field that is absent or [undefined]. *)
Record AlchemyWeb3Config (Provider Middleware : Type) : Type := mkConfig {
  given_writeProvider : provider_ref Provider;
  given_jsonRpcSenderMiddlewares : option (list Middleware);
  given_maxRetries : option Z;
  given_retryInterval : option Z;
  given_retryJitter : option Z
}.

Arguments mkConfig {Provider Middleware} _ _ _ _ _.
Arguments given_writeProvider {Provider Middleware} _.
Arguments given_jsonRpcSenderMiddlewares {Provider Middleware} _.
Arguments given_maxRetries {Provider Middleware} _.
Arguments given_retryInterval {Provider Middleware} _.
Arguments given_retryJitter {Provider Middleware} _.

Record FullConfig (Provider Middleware : Type) : Type := mkFullConfig {
  writeProvider : provider_ref Provider;
  jsonRpcSenderMiddlewares : list Middleware;
  maxRetries : Z;
  retryInterval : Z;
  retryJitter : Z
}.

Arguments mkFullConfig {Provider Middleware} _ _ _ _ _.
Arguments writeProvider {Provider Middleware} _.
Arguments jsonRpcSenderMiddlewares {Provider Middleware} _.
Arguments maxRetries {Provider Middleware} _.
Arguments retryInterval {Provider Middleware} _.
Arguments retryJitter {Provider Middleware} _.

(** The empty object [{}] that stands in for an absent configuration. *)
Definition emptyConfig {Provider Middleware} : AlchemyWeb3Config Provider Middleware :=
  mkConfig PUndefined None None None None.

(** A destructuring default [x = d]: [d] replaces [undefined] only. *)
Definition orDefault {A} (given : option A) (d : A) : A :=
  match given with
  | Some a => a
  | None => d
  end.

(** [typeof window !== "undefined" ? window.ethereum : null]. *)
Definition getWindowProvider {Provider}
    (window : option (EthereumWindow Provider)) : provider_ref Provider :=
  match window with
  | Some w => ethereum w
  | None => PNull
  end.

Definition fillInConfigDefaults {Provider Middleware}
    (window : option (EthereumWindow Provider))
    (config : option (AlchemyWeb3Config Provider Middleware))
  : FullConfig Provider Middleware :=
  let c := orDefault config emptyConfig in
  mkFullConfig
    (match given_writeProvider c with
     | PUndefined => getWindowProvider window
     | given => given
     end)
    (orDefault (given_jsonRpcSenderMiddlewares c) [])
    (orDefault (given_maxRetries c) DEFAULT_MAX_RETRIES)
    (orDefault (given_retryInterval c) DEFAULT_RETRY_INTERVAL)
    (orDefault (given_retryJitter c) DEFAULT_RETRY_JITTER).

(** A full configuration read as a configuration: every field is set. *)
Definition asConfig {Provider Middleware}
    (full : FullConfig Provider Middleware)
  : AlchemyWeb3Config Provider Middleware :=
  mkConfig (writeProvider full)
    (Some (jsonRpcSenderMiddlewares full))
    (Some (maxRetries full))
    (Some (retryInterval full))
    (Some (retryJitter full)).

End Config.

(* ================================================================== *)
(** * The client object *)
(* ================================================================== *)

Module Client.

Import Config.

(** A method of the client: it gets its arguments and the client's state
    [St] (the providers among it), and may throw. *)
Definition Method (St A : Type) : Type := A -> St -> completion unit * St.

(** The members of the Web3 object that [createAlchemyWeb3] assigns. *)
Record AlchemyWeb3 (St Provider : Type) : Type := mkAlchemyWeb3 {
  setProvider : Method St (list value);
  setWriteProvider : Method St (provider_ref Provider)
}.

Arguments mkAlchemyWeb3 {St Provider} _ _.
Arguments setProvider {St Provider} _.
Arguments setWriteProvider {St Provider} _.

(** What [makeAlchemyContext] hands back, as far as it is used here. *)
Record AlchemyContext (St Provider : Type) : Type := mkContext {
  provider : Provider;
  ctx_setWriteProvider : Method St (provider_ref Provider)
}.

Arguments mkContext {St Provider} _ _.
Arguments provider {St Provider} _.
Arguments ctx_setWriteProvider {St Provider} _.

Definition setProvider_message : string :=
  "setProvider is not supported in Alchemy Web3. To change the provider used for writes, use setWriteProvider() instead.".

(** [createAlchemyWeb3], up to the two assignments to the new Web3 object.
    [makeAlchemyContext] and the [Web3] constructor are not part of
    [src/index.ts] and are taken as given. *)
Definition createAlchemyWeb3 {St Provider Middleware}
    (window : option (EthereumWindow Provider))
    (makeAlchemyContext :
       string -> FullConfig Provider Middleware -> AlchemyContext St Provider)
    (newWeb3 : Provider -> AlchemyWeb3 St Provider)
    (alchemyUrl : string)
    (config : option (AlchemyWeb3Config Provider Middleware))
  : AlchemyWeb3 St Provider :=
  let fullConfig := fillInConfigDefaults window config in
  let context := makeAlchemyContext alchemyUrl fullConfig in
  let alchemyWeb3 := newWeb3 (provider context) in
  let alchemyWeb3 :=
    mkAlchemyWeb3
      (fun _ st => (Throw (Error setProvider_message), st))
      (setWriteProvider alchemyWeb3) in
  mkAlchemyWeb3 (setProvider alchemyWeb3) (ctx_setWriteProvider context).

(** A run of calls of one method, each on the state the one before left:
    the completions in order, and the final state. *)
Fixpoint call_each {St A} (method : Method St A) (calls : list A) (st : St)
  : list (completion unit) * St :=
  match calls with
  | [] => ([], st)
  | a :: calls' =>
      let (c, st1) := method a st in
      let (cs, st2) := call_each method calls' st1 in
      (c :: cs, st2)
  end.

End Client.

(* ================================================================== *)
(** * Token balances *)
(* ================================================================== *)

Module TokenBalances.

Definition TypeError : value := VObj [("name", VStr "TypeError")].

Section WithDecoder.

(** [ABIDecoder.decodeParameter] of web3-eth-abi: the fixed-width integer
    decoder, a pure function from the type name and the encoded value to the
    decimal string. *)
Variable decodeParameter : string -> value -> value.

(** The arrow passed to [map]. *)
Definition fixBalance (balance : value) : completion value :=
  match balance with
  | VObj fields =>
      if notNullish (get fields "tokenBalance") then
        Normal (VObj (spread_with fields "tokenBalance"
                        (decodeParameter "uint256" (get fields "tokenBalance"))))
      else Normal balance
  | VUndefined | VNull => Throw TypeError
  | _ => Normal balance
  end.

(** [balances.map(f)] for an [f] that may throw. *)
Fixpoint map_throwing (f : value -> completion value) (l : list value)
  : completion (list value) :=
  match l with
  | [] => Normal []
  | x :: l' =>
      match f x with
      | Throw e => Throw e
      | Normal y =>
          match map_throwing f l' with
          | Throw e => Throw e
          | Normal ys => Normal (y :: ys)
          end
      end
  end.

Definition processTokenBalanceResponse (rawResponse : Obj) : completion Obj :=
  match get rawResponse "tokenBalances" with
  | VArr balances =>
      match map_throwing fixBalance balances with
      | Normal fixedTokenBalances =>
          Normal (spread_with rawResponse "tokenBalances"
                    (VArr fixedTokenBalances))
      | Throw e => Throw e
      end
  | _ => Throw TypeError
  end.

End WithDecoder.

(** A [TokenBalancesResponse]: an object whose [tokenBalances] is an array
    of objects. *)
Definition isObject (v : value) : bool :=
  match v with
  | VObj _ => true
  | _ => false
  end.

Definition isResponse (rawResponse : Obj) : bool :=
  match get rawResponse "tokenBalances" with
  | VArr balances => forallb isObject balances
  | _ => false
  end.

(** What the claim says of one entry [b] and its image [b']: an entry
    whose [tokenBalance] is [null] or missing is handed on as it is; in any
    other entry [tokenBalance] holds the decoded value and nothing else
    differs. *)
Definition entry_fixed (decodeParameter : string -> value -> value)
    (b b' : value) : Prop :=
  exists fields,
    b = VObj fields /\
    if notNullish (get fields "tokenBalance") then
      exists fields',
        b' = VObj fields' /\
        keys fields' = keys fields /\
        get fields' "tokenBalance"
        = decodeParameter "uint256" (get fields "tokenBalance") /\
        forall k, k <> "tokenBalance" -> get fields' k = get fields k
    else b' = b.

(** A response with one decoded and one missing balance, and a decoder for
    it. *)
Definition sample_response : Obj :=
  [ ("address", VStr "0xabc");
    ("tokenBalances",
     VArr [ VObj [ ("contractAddress", VStr "0x01");
                   ("tokenBalance", VStr "0x10");
                   ("error", VNull) ];
            VObj [ ("contractAddress", VStr "0x02");
                   ("tokenBalance", VNull);
                   ("error", VStr "execution reverted") ] ]) ].

Definition sample_decoder (type : string) (encoded : value) : value :=
  VStr "16".

End TokenBalances.

(* ================================================================== *)
(** * The promise/callback bridge *)
(* ================================================================== *)

Module Bridge.

(** How a promise settles. *)
Inductive settlement : Type :=
| Fulfilled : value -> settlement
| Rejected : value -> settlement.

(** The settlement of an [async] body that ends with the completion [c]. *)
Definition settle_with (c : completion value) : settlement :=
  match c with
  | Normal v => Fulfilled v
  | Throw e => Rejected e
  end.

(** What can be seen from outside, in the order it happens. *)
Inductive event : Type :=
| EvSend : string -> list value -> event        (* jsonRpcSenders.send *)
| EvRest : string -> Obj -> event               (* restSender.sendRestPayload *)
| EvSettled : nat -> settlement -> event        (* a promise settles *)
| EvCallback : value -> value -> event.         (* the callback is called *)

Section WithHost.

(** The state callbacks act on. *)
Variable S : Type.

(** [Web3Callback]: called with [(error, result)]; it may throw. *)
Definition Web3Callback : Type := value -> value -> S -> completion unit * S.

(** [processResponse]. *)
Definition Processor : Type := value -> completion value.

Definition noop : Web3Callback := fun _ _ s => (Normal tt, s).

Definition identity : Processor := fun x => Normal x.

(** What waits for a promise: the rest of the [async] arrow after its
    [await] (it settles the arrow's own promise), or a callback registered by
    [callWhenDone]. *)
Inductive reaction : Type :=
| AsyncReturn : Processor -> nat -> reaction
| WhenDone : Web3Callback -> reaction.

Record cell : Type := mkCell {
  state : option settlement;
  reactions : list reaction
}.

(** The event loop: the promises made so far (a promise is its index), the
    queue of jobs, the events so far, and the host state. *)
Record Loop : Type := mkLoop {
  promises : list cell;
  jobs : list (reaction * settlement);
  trace : list event;
  host : S
}.

Definition empty_loop (s : S) : Loop := mkLoop [] [] [] s.

Definition log (e : event) (l : Loop) : Loop :=
  mkLoop (promises l) (jobs l) (trace l ++ [e]) (host l).

Definition new_promise (l : Loop) : nat * Loop :=
  (length (promises l),
   mkLoop (promises l ++ [mkCell None []]) (jobs l) (trace l) (host l)).

Fixpoint replace_cell (cells : list cell) (p : nat) (c : cell) : list cell :=
  match cells, p with
  | [], _ => []
  | _ :: cells', O => c :: cells'
  | c' :: cells', Datatypes.S p' => c' :: replace_cell cells' p' c
  end.

Definition status (l : Loop) (p : nat) : option settlement :=
  match nth_error (promises l) p with
  | Some c => state c
  | None => None
  end.

(** [p.then(...)]: a job at once when [p] has settled, a reaction kept with
    [p] otherwise. *)
Definition then_ (p : nat) (r : reaction) (l : Loop) : Loop :=
  match nth_error (promises l) p with
  | Some c =>
      match state c with
      | Some s => mkLoop (promises l) (jobs l ++ [(r, s)]) (trace l) (host l)
      | None =>
          mkLoop (replace_cell (promises l) p (mkCell None (reactions c ++ [r])))
            (jobs l) (trace l) (host l)
      end
  | None => l
  end.

(** Settling a pending promise queues a job for each reaction; a promise that
    has settled stays as it is. *)
Definition settle (p : nat) (s : settlement) (l : Loop) : Loop :=
  match nth_error (promises l) p with
  | Some c =>
      match state c with
      | Some _ => l
      | None =>
          mkLoop (replace_cell (promises l) p (mkCell (Some s) []))
            (jobs l ++ map (fun r => (r, s)) (reactions c))
            (trace l ++ [EvSettled p s]) (host l)
      end
  | None => l
  end.

Definition invoke (callback : Web3Callback) (error result : value) (l : Loop)
  : Loop :=
  mkLoop (promises l) (jobs l) (trace l ++ [EvCallback error result])
    (snd (callback error result (host l))).

Definition run_job (j : reaction * settlement) (l : Loop) : Loop :=
  match j with
  | (AsyncReturn processResponse promise, Fulfilled result) =>
      settle promise (settle_with (processResponse result)) l
  | (AsyncReturn _ promise, Rejected error) =>
      settle promise (Rejected error) l
  | (WhenDone callback, Fulfilled result) => invoke callback VNull result l
  | (WhenDone callback, Rejected error) => invoke callback error VUndefined l
  end.

(** Run the queued jobs, oldest first, at most [fuel] of them. *)
Fixpoint drain (fuel : nat) (l : Loop) : Loop :=
  match fuel with
  | O => l
  | Datatypes.S fuel' =>
      match jobs l with
      | [] => l
      | j :: rest =>
          drain fuel'
            (run_job j (mkLoop (promises l) rest (trace l) (host l)))
      end
  end.

(** [jsonRpcSenders.send] and [restSender.sendRestPayload] are not part of
    [src/index.ts]; each is taken as what its type says: the request goes out
    and a promise comes back, which the transport settles later. *)
Definition send (method : string) (params : list value) (l : Loop) : nat * Loop :=
  new_promise (log (EvSend method params) l).

Definition sendRestPayload (path : string) (params : Obj) (l : Loop) : nat * Loop :=
  new_promise (log (EvRest path params) l).

(** Modelled from the spec: [callWhenDone] of [util/promises], which is not
    part of [src/index.ts].  Section 4.5: "If a callback is supplied, after
    the operation settles, invoke it exactly once with (error, undefined) on
    failure or (null, value) on success"; the promise itself is left as it
    is.  The callback is a reaction to the promise ([WhenDone], run by
    [run_job]). *)
Definition callWhenDone (promise : nat) (callback : Web3Callback) (l : Loop)
  : Loop :=
  then_ promise (WhenDone callback) l.

(** [callAlchemyJsonRpcMethod].  The [async] arrow is called at once: its
    promise is made, [send] is called, and the rest of the body waits for
    the promise of [send]. *)
Definition callAlchemyJsonRpcMethod
    (method : string) (params : list value)
    (callback : option Web3Callback) (processResponse : option Processor)
    (l : Loop) : nat * Loop :=
  let callback := Config.orDefault callback noop in
  let processResponse := Config.orDefault processResponse identity in
  let (promise, l) := new_promise l in
  let (sent, l) := send method params l in
  let l := then_ sent (AsyncReturn processResponse promise) l in
  let l := callWhenDone promise callback l in
  (promise, l).

Definition callAlchemyRestEndpoint
    (path : string) (params : Obj)
    (callback : option Web3Callback) (processResponse : option Processor)
    (l : Loop) : nat * Loop :=
  let callback := Config.orDefault callback noop in
  let processResponse := Config.orDefault processResponse identity in
  let fixedParams := fixArrayQueryParams params in
  let (promise, l) := new_promise l in
  let (sent, l) := sendRestPayload path fixedParams l in
  let l := then_ sent (AsyncReturn processResponse promise) l in
  let l := callWhenDone promise callback l in
  (promise, l).

(** The arguments the callback is owed for a settlement. *)
Definition callback_arguments (s : settlement) : value * value :=
  match s with
  | Fulfilled result => (VNull, result)
  | Rejected error => (error, VUndefined)
  end.

(** The settlement of the returned promise, from that of the request. *)
Definition outcome (processResponse : option Processor) (s : settlement)
  : settlement :=
  match s with
  | Fulfilled result =>
      settle_with (Config.orDefault processResponse identity result)
  | Rejected error => Rejected error
  end.

(** The loop after the part the two functions share: request [e] has
    gone out, its promise waits with the rest of the [async] body, and the
    returned promise waits with the callback. *)
Definition registered (e : event) (callback : Web3Callback)
    (processResponse : Processor) (l : Loop) : Loop :=
  mkLoop
    (promises l
       ++ [ mkCell None [WhenDone callback];
            mkCell None [AsyncReturn processResponse (length (promises l))] ])
    (jobs l) (trace l ++ [e]) (host l).

(** A loop at rest: no job is queued. *)
Definition at_rest (l : Loop) : Prop := jobs l = [].

(** What the bridge owes for a call that sent [request] from the loop [l]
    and came back with [call], when the request settles with [s].  Until
    then only the request has gone out, the returned promise is pending and
    no job runs.  After it, the events are, in this order: the request, its
    settlement, the settlement of the returned promise, one call of the
    callback with the arguments owed; the queue is empty again and the host
    state is what that one call of the callback left (untouched when no
    callback was given). *)
Definition delivers (request : event)
    (callback : option Web3Callback) (processResponse : option Processor)
    (l : Loop) (call : nat * Loop) (s : settlement) (fuel : nat) : Prop :=
  let promise := fst call in
  let sent := Datatypes.S promise in
  let settled := outcome processResponse s in
  let args := callback_arguments settled in
  let done := drain (2 + fuel) (settle sent s (snd call)) in
  trace (snd call) = trace l ++ [request]
  /\ status (snd call) promise = None
  /\ drain fuel (snd call) = snd call
  /\ trace done
     = trace l
         ++ [ request; EvSettled sent s; EvSettled promise settled;
              EvCallback (fst args) (snd args) ]
  /\ status done promise = Some settled
  /\ jobs done = []
  /\ host done
     = match callback with
       | Some cb => snd (cb (fst args) (snd args) (host l))
       | None => host l
       end.

(** A callback that counts its calls. *)
Definition counting_callback : value -> value -> nat -> completion unit * nat :=
  fun _ _ n => (Normal tt, Datatypes.S n).

End WithHost.

Arguments mkLoop {S} _ _ _ _.
Arguments promises {S} _.
Arguments jobs {S} _.
Arguments trace {S} _.
Arguments host {S} _.
Arguments empty_loop {S} _.
Arguments status {S} _ _.
Arguments settle {S} _ _ _.
Arguments drain {S} _ _.
Arguments noop {S} _ _ _.
Arguments callAlchemyJsonRpcMethod {S} _ _ _ _ _.
Arguments callAlchemyRestEndpoint {S} _ _ _ _ _.
Arguments at_rest {S} _.
Arguments registered {S} _ _ _ _.
Arguments delivers {S} _ _ _ _ _ _ _.

End Bridge.

(* ================================================================== *)
(** * The retrying sender *)
(* ================================================================== *)

Module Retry.

Inductive failure_class : Type :=
| Transient : failure_class
| Permanent : failure_class.

(** What the transport answers to one attempt. *)
Inductive attempt : Type :=
| Succeeds : value -> attempt
| Fails : failure_class -> value -> attempt.

(** What a send comes to: its result, the number of attempts issued, and
    the waits before the retries. *)
Record report : Type := mkReport {
  result : Bridge.settlement;
  attempts : nat;
  waits : list Z
}.

Section WithTransport.

(** The answer of the transport to the attempt number [k], counted from 0. *)
Variable transport : nat -> attempt.

(** The random part of the wait before the retry that follows attempt
    [k]. *)
Variable jitter : nat -> Z.

Variable retryInterval : Z.

(** Modelled from the spec: the retry loop of the JSON-RPC sender, whose
    code ([util/jsonRpc] and the senders beneath it) is not part of
    [src/index.ts].  Section 4.2: "Transient failures are retried up to
    maxRetries times; before each retry, wait retryInterval +
    uniform_random(0, retryJitter) ... Permanent failures propagate
    immediately with zero retries.  After maxRetries exhausted, the last
    observed error is returned."  [retries] is the number of retries still
    allowed, [k] the number of the attempt about to go out. *)
Fixpoint send_from (retries : nat) (k : nat) (waited : list Z) : report :=
  match transport k with
  | Succeeds v => mkReport (Bridge.Fulfilled v) (S k) waited
  | Fails Permanent e => mkReport (Bridge.Rejected e) (S k) waited
  | Fails Transient e =>
      match retries with
      | O => mkReport (Bridge.Rejected e) (S k) waited
      | S retries' =>
          send_from retries' (S k) (waited ++ [(retryInterval + jitter k)%Z])
      end
  end.

Definition send (maxRetries : nat) : report := send_from maxRetries 0 [].

(** The first [n] attempts all meet a Transient failure. *)
Definition transient_until (n : nat) : Prop :=
  forall k, k < n -> exists e, transport k = Fails Transient e.

End WithTransport.

(** A transport that is rate limited twice and then answers. *)
Definition sample_transport (k : nat) : attempt :=
  if Nat.ltb k 2 then Fails Transient (VStr "rate limited")
  else Succeeds (VNum 7).

End Retry.

(* ================================================================== *)
(** * The Alchemy methods *)
(* ================================================================== *)

Module Api.

Import Bridge.

Definition DEFAULT_CONTRACT_ADDRESS : string := "DEFAULT_TOKENS".

Section WithHost.

Variable S : Type.

(** [web3-eth-abi]'s decoder, [formatBlock] of [util/hex] and [toHex] of
    web3-utils: pure functions from outside [src/index.ts]. *)
Variable decodeParameter : string -> value -> value.
Variable formatBlock : value -> value.
Variable toHex : value -> value.

(** [processTokenBalanceResponse] as the [processResponse] of a call: the
    result of the request may be any value; reading [tokenBalances] off
    [null] or [undefined] throws, and so does calling [map] on what a
    value other than an object holds there. *)
Definition processTokenBalances : Processor :=
  fun rawResponse =>
    match rawResponse with
    | VObj fields =>
        match TokenBalances.processTokenBalanceResponse decodeParameter fields with
        | Normal response => Normal (VObj response)
        | Throw e => Throw e
        end
    | _ => Throw TokenBalances.TypeError
    end.

(** [alchemy.getTokenBalances]. *)
Definition getTokenBalances (address contractAddresses : value)
    (callback : option (Web3Callback S)) (l : Loop S) : nat * Loop S :=
  callAlchemyJsonRpcMethod "alchemy_getTokenBalances"
    [address; or_else contractAddresses (VStr DEFAULT_CONTRACT_ADDRESS)]
    callback (Some processTokenBalances) l.

(** [cond != null ? f(x) : undefined]. *)
Definition formatted (f : value -> value) (x : value) : value :=
  if notNullish x then f x else VUndefined.

(** The object literal that [alchemy.getAssetTransfers] sends:
    [{...params, fromBlock: ..., toBlock: ..., maxCount: ...}]. *)
Definition assetTransfersParams (params : Obj) : Obj :=
  set
    (set
       (spread_with params "fromBlock"
          (formatted formatBlock (get params "fromBlock")))
       "toBlock" (formatted formatBlock (get params "toBlock")))
    "maxCount" (formatted toHex (get params "maxCount")).

(** [alchemy.getAssetTransfers]. *)
Definition getAssetTransfers (params : Obj)
    (callback : option (Web3Callback S)) (l : Loop S) : nat * Loop S :=
  callAlchemyJsonRpcMethod "alchemy_getAssetTransfers"
    [VObj (assetTransfersParams params)] callback None l.

(** [alchemy.getNfts] and [alchemy.getNftMetadata]. *)
Definition getNfts (params : Obj)
    (callback : option (Web3Callback S)) (l : Loop S) : nat * Loop S :=
  callAlchemyRestEndpoint "/v1/getNFTs/" params callback None l.

Definition getNftMetadata (params : Obj)
    (callback : option (Web3Callback S)) (l : Loop S) : nat * Loop S :=
  callAlchemyRestEndpoint "/v1/getNFTMetadata/" params callback None l.

End WithHost.

Arguments getTokenBalances {S} _ _ _ _ _.
Arguments getAssetTransfers {S} _ _ _ _ _.
Arguments getNfts {S} _ _ _.
Arguments getNftMetadata {S} _ _ _.

End Api.

(* ================================================================== *)
(** * Properties: strings *)
(* ================================================================== *)

Section StringFacts.

Local Open Scope string_scope.

Lemma length_append (s t : string) :
  String.length (s ++ t) = String.length s + String.length t.
Proof.
  induction s as [|c s IH]; simpl; [reflexivity | now rewrite IH].
Qed.

Lemma append_empty_r (s : string) : s ++ "" = s.
Proof.
  induction s as [|c s IH]; simpl; [reflexivity | now rewrite IH].
Qed.

Lemma append_assoc (s t u : string) : (s ++ t) ++ u = s ++ (t ++ u).
Proof.
  induction s as [|c s IH]; simpl; [reflexivity | now rewrite IH].
Qed.

Lemma length_zero (s : string) : String.length s = 0 -> s = "".
Proof. destruct s; simpl; [reflexivity | discriminate]. Qed.

(** [prefix e s] holds exactly when [s] starts with [e]. *)
Lemma prefix_iff (e s : string) :
  String.prefix e s = true <-> exists post, s = e ++ post.
Proof.
  revert s; induction e as [|a e IH]; intros s.
  - destruct s; simpl; split; intros; eauto.
  - destruct s as [|b s]; simpl.
    + split; [discriminate | intros [post H]; discriminate].
    + destruct (ascii_dec a b) as [->|Hab].
      * rewrite IH. split; intros [post H]; exists post.
        -- now subst.
        -- now injection H.
      * split; [discriminate | intros [post H]; injection H; congruence].
Qed.

(** An index that [lastIndexOf] reports is one where [e] occurs. *)
Lemma lastIndexOf_from_sound (s e : string) :
  forall pos i,
    lastIndexOf_from s e pos = Some i ->
    exists pre post, s = pre ++ e ++ post /\ i = pos + String.length pre.
Proof.
  induction s as [|c s IH]; intros pos i H; cbn [lastIndexOf_from] in H.
  - destruct (String.prefix e "") eqn:P; [|discriminate].
    injection H as <-. apply prefix_iff in P as [post P].
    exists "", post. simpl. split; [exact P | lia].
  - destruct (lastIndexOf_from s e (S pos)) as [j|] eqn:L.
    + injection H as <-. apply IH in L as (pre & post & -> & ->).
      exists (String c pre), post. simpl. split; [reflexivity | lia].
    + destruct (String.prefix e (String c s)) eqn:P; [|discriminate].
      injection H as <-. apply prefix_iff in P as [post P].
      exists "", post. simpl. split; [exact P | lia].
Qed.

(** No occurrence of [e] lies after the index that [lastIndexOf] reports. *)
Lemma lastIndexOf_from_max (s e : string) :
  forall pos pre post,
    s = pre ++ e ++ post ->
    exists i, lastIndexOf_from s e pos = Some i /\ pos + String.length pre <= i.
Proof.
  induction s as [|c s IH]; intros pos pre post H; cbn [lastIndexOf_from].
  - destruct pre; [|discriminate]. simpl in H.
    assert (P : String.prefix e "" = true) by (apply prefix_iff; eauto).
    rewrite P. exists pos. simpl. split; [reflexivity | lia].
  - destruct pre as [|a pre]; simpl in H.
    + assert (P : String.prefix e (String c s) = true)
        by (apply prefix_iff; eauto).
      destruct (lastIndexOf_from s e (S pos)) as [j|] eqn:L.
      * exists j. split; [reflexivity|].
        apply lastIndexOf_from_sound in L as (? & ? & _ & ->). simpl. lia.
      * rewrite P. exists pos. simpl. split; [reflexivity | lia].
    + injection H as -> H.
      destruct (IH (S pos) pre post H) as (i & -> & Hi).
      exists i. split; [reflexivity | simpl; lia].
Qed.

(** [endsWith] holds exactly when the string ends with the ending. *)
Lemma endsWith_iff (s e : string) :
  endsWith s e = true <-> exists pre, s = pre ++ e.
Proof.
  unfold endsWith, lastIndexOf. split.
  - intros H. apply andb_true_iff in H as [H0 H1].
    destruct (lastIndexOf_from s e 0) as [i|] eqn:L;
      [|apply Z.leb_le in H0; lia].
    apply Z.eqb_eq in H1.
    apply lastIndexOf_from_sound in L as (pre & post & Hs & ->).
    exists pre. rewrite Hs in H1. rewrite !length_append in H1.
    assert (Hp : String.length post = 0) by lia.
    apply length_zero in Hp. subst post. now rewrite append_empty_r in Hs.
  - intros [pre Hs].
    destruct (lastIndexOf_from_max s e 0 pre "") as (i & L & Hi).
    { now rewrite append_empty_r. }
    rewrite L.
    apply lastIndexOf_from_sound in L as (pre' & post' & Hs' & ->).
    assert (Hlen : String.length s = String.length pre + String.length e)
      by (rewrite Hs; apply length_append).
    assert (Hlen' : String.length s
                    = String.length pre' + (String.length e + String.length post'))
      by (rewrite Hs' at 1; now rewrite !length_append).
    apply andb_true_iff. split; [apply Z.leb_le | apply Z.eqb_eq]; lia.
Qed.

Lemma endsWith_toArrayKey (key : string) :
  endsWith (toArrayKey key) "[]" = true.
Proof.
  unfold toArrayKey. destruct (endsWith key "[]") eqn:E; [exact E|].
  apply endsWith_iff. now exists key.
Qed.

Lemma toArrayKey_fixed (key : string) :
  endsWith key "[]" = true -> toArrayKey key = key.
Proof. unfold toArrayKey. now intros ->. Qed.

End StringFacts.

(* ================================================================== *)
(** * Properties: array-index keys *)
(* ================================================================== *)

Section ArrayIndexFacts.

Local Open Scope N_scope.

Lemma digit_of_spec (c : ascii) (d : N) :
  digit_of c = Some d -> d < 10 /\ c = ascii_of_N (d + 48).
Proof.
  unfold digit_of. intros H.
  destruct ((48 <=? N_of_ascii c) && (N_of_ascii c <=? 57))%bool eqn:E;
    [|discriminate].
  injection H as <-. apply andb_true_iff in E as [E1 E2].
  apply N.leb_le in E1, E2. split; [lia|].
  replace (N_of_ascii c - 48 + 48) with (N_of_ascii c) by lia.
  symmetry. apply ascii_N_embedding.
Qed.

Lemma pow10_pos (k : nat) : 0 < pow10 k.
Proof. induction k; cbn [pow10]; lia. Qed.

Lemma pow10_lt (j k : nat) : (j < k)%nat -> 10 * pow10 j <= pow10 k.
Proof.
  induction 1 as [|k _ IH]; cbn [pow10]; [lia|].
  pose proof (pow10_pos j). lia.
Qed.

(** The numeral read after [acc] lies in the block that [acc] opens. *)
Lemma parse_digits_bounds (s : string) :
  forall acc n,
    parse_digits s acc = Some n ->
    acc * pow10 (String.length s) <= n < (acc + 1) * pow10 (String.length s).
Proof.
  induction s as [|c s IH]; intros acc n H; cbn [parse_digits] in H.
  - injection H as <-. simpl. lia.
  - destruct (digit_of c) as [d|] eqn:D; [|discriminate].
    apply digit_of_spec in D as [D _]. apply IH in H.
    cbn [String.length pow10]. nia.
Qed.

Lemma parse_digits_inj (s : string) :
  forall s' acc acc' n,
    String.length s = String.length s' ->
    parse_digits s acc = Some n ->
    parse_digits s' acc' = Some n ->
    acc = acc' /\ s = s'.
Proof.
  induction s as [|c s IH]; intros [|c' s'] acc acc' n L H H';
    try discriminate; cbn [parse_digits] in H, H'.
  - split; congruence.
  - destruct (digit_of c) as [d|] eqn:D; [|discriminate].
    destruct (digit_of c') as [d'|] eqn:D'; [|discriminate].
    apply digit_of_spec in D as [D ->], D' as [D' ->].
    injection L as L.
    destruct (IH _ _ _ _ L H H') as [E ->].
    assert (d = d') by lia. assert (acc = acc') by lia.
    subst. now split.
Qed.

(** Two keys with one array index are one key. *)
Lemma array_index_inj (k k' : string) (n : N) :
  array_index k = Some n -> array_index k' = Some n -> k = k'.
Proof.
  unfold array_index. intros H H'.
  destruct k as [|c s]; [discriminate|].
  destruct k' as [|c' s']; [discriminate|].
  destruct (digit_of c) as [d|] eqn:D; [|discriminate].
  destruct (digit_of c') as [d'|] eqn:D'; [|discriminate].
  pose proof (digit_of_spec _ _ D) as [Dlt Dc].
  pose proof (digit_of_spec _ _ D') as [Dlt' Dc'].
  destruct (N.eqb_spec d 0) as [Z0|NZ]; destruct (N.eqb_spec d' 0) as [Z0'|NZ'].
  - destruct s; [|discriminate]. destruct s'; [|discriminate]. congruence.
  - destruct s; [|discriminate]. injection H as <-.
    destruct (parse_digits s' d') as [m|] eqn:P; [|discriminate].
    destruct (m <? 2 ^ 32 - 1); [|discriminate]. injection H' as ->.
    apply parse_digits_bounds in P. pose proof (pow10_pos (String.length s')).
    nia.
  - destruct s'; [|discriminate]. injection H' as <-.
    destruct (parse_digits s d) as [m|] eqn:P; [|discriminate].
    destruct (m <? 2 ^ 32 - 1); [|discriminate]. injection H as ->.
    apply parse_digits_bounds in P. pose proof (pow10_pos (String.length s)).
    nia.
  - destruct (parse_digits s d) as [m|] eqn:P; [|discriminate].
    destruct (m <? 2 ^ 32 - 1); [|discriminate]. injection H as ->.
    destruct (parse_digits s' d') as [m'|] eqn:P'; [|discriminate].
    destruct (m' <? 2 ^ 32 - 1); [|discriminate]. injection H' as ->.
    pose proof (parse_digits_bounds _ _ _ P) as B.
    pose proof (parse_digits_bounds _ _ _ P') as B'.
    destruct (Nat.lt_trichotomy (String.length s) (String.length s'))
      as [L|[L|L]].
    + apply pow10_lt in L. nia.
    + destruct (parse_digits_inj _ _ _ _ _ L P P') as [-> ->]. congruence.
    + apply pow10_lt in L. nia.
Qed.

End ArrayIndexFacts.

(* ================================================================== *)
(** * Properties: objects *)
(* ================================================================== *)

Section ObjectFacts.

Lemma has_true_iff (o : Obj) (k : string) : has o k = true <-> In k (keys o).
Proof.
  induction o as [|[k' v'] o IH]; simpl.
  - split; [discriminate | tauto].
  - rewrite orb_true_iff, IH, String.eqb_eq. tauto.
Qed.

Lemma has_false_iff (o : Obj) (k : string) :
  has o k = false <-> ~ In k (keys o).
Proof.
  rewrite <- has_true_iff. destruct (has o k); split; congruence.
Qed.

Lemma keys_app (o o' : Obj) : keys (o ++ o') = keys o ++ keys o'.
Proof. apply map_app. Qed.

Lemma keys_update (o : Obj) (k : string) (v : value) :
  keys (update o k v) = keys o.
Proof.
  induction o as [|[k' v'] o IH]; simpl; [reflexivity|].
  destruct (String.eqb k' k); simpl; [reflexivity | now rewrite IH].
Qed.

Lemma In_keys_insert_index (o : Obj) (n : N) (k : string) (v : value) (a : string) :
  In a (keys (insert_index o n k v)) <-> a = k \/ In a (keys o).
Proof.
  induction o as [|[k' v'] o IH]; simpl.
  - intuition congruence.
  - destruct (array_index k') as [m|]; [destruct (m <? n)%N|]; simpl;
      try rewrite IH; intuition congruence.
Qed.

Lemma In_keys_create (o : Obj) (k : string) (v : value) (a : string) :
  In a (keys (create o k v)) <-> a = k \/ In a (keys o).
Proof.
  unfold create. destruct (array_index k).
  - apply In_keys_insert_index.
  - rewrite keys_app, in_app_iff. simpl. intuition congruence.
Qed.

Lemma In_keys_set (o : Obj) (k : string) (v : value) (a : string) :
  In a (keys (set o k v)) <-> a = k \/ In a (keys o).
Proof.
  unfold set. destruct (has o k) eqn:H.
  - rewrite keys_update. apply has_true_iff in H. intuition congruence.
  - apply In_keys_create.
Qed.

(** ** Reading after writing *)

Lemma get_update_same (o : Obj) (k : string) (v : value) :
  has o k = true -> get (update o k v) k = v.
Proof.
  induction o as [|[k' v'] o IH]; simpl; [discriminate|].
  destruct (String.eqb k' k) eqn:E; simpl; rewrite E; auto.
Qed.

Lemma get_update_other (o : Obj) (k a : string) (v : value) :
  a <> k -> get (update o k v) a = get o a.
Proof.
  intros Hne. induction o as [|[k' v'] o IH]; simpl; [reflexivity|].
  destruct (String.eqb_spec k' k) as [->|Hk]; simpl.
  - destruct (String.eqb_spec k a); [congruence | reflexivity].
  - destruct (String.eqb k' a); [reflexivity | exact IH].
Qed.

Lemma get_insert_index_same (o : Obj) (n : N) (k : string) (v : value) :
  has o k = false -> get (insert_index o n k v) k = v.
Proof.
  induction o as [|[k' v'] o IH]; simpl; intros H.
  - now rewrite String.eqb_refl.
  - apply orb_false_iff in H as [E H].
    destruct (array_index k') as [m|]; [destruct (m <? n)%N|]; simpl;
      rewrite ?E, ?String.eqb_refl; auto.
Qed.

Lemma get_insert_index_other (o : Obj) (n : N) (k a : string) (v : value) :
  a <> k -> get (insert_index o n k v) a = get o a.
Proof.
  intros Hne. apply String.eqb_neq in Hne. rewrite String.eqb_sym in Hne.
  induction o as [|[k' v'] o IH]; simpl.
  - now rewrite Hne.
  - destruct (array_index k') as [m|]; [destruct (m <? n)%N|]; simpl;
      rewrite ?Hne, ?IH; reflexivity.
Qed.

Lemma get_app_same (o : Obj) (k : string) (v : value) :
  has o k = false -> get (o ++ [(k, v)]) k = v.
Proof.
  induction o as [|[k' v'] o IH]; simpl; intros H.
  - now rewrite String.eqb_refl.
  - apply orb_false_iff in H as [E H]. rewrite E. auto.
Qed.

Lemma get_app_other (o : Obj) (k a : string) (v : value) :
  a <> k -> get (o ++ [(k, v)]) a = get o a.
Proof.
  intros Hne. apply String.eqb_neq in Hne. rewrite String.eqb_sym in Hne.
  induction o as [|[k' v'] o IH]; simpl.
  - now rewrite Hne.
  - now rewrite IH.
Qed.

Lemma get_set_same (o : Obj) (k : string) (v : value) :
  get (set o k v) k = v.
Proof.
  unfold set, create. destruct (has o k) eqn:H.
  - now apply get_update_same.
  - destruct (array_index k).
    + now apply get_insert_index_same.
    + now apply get_app_same.
Qed.

Lemma get_set_other (o : Obj) (k a : string) (v : value) :
  a <> k -> get (set o k v) a = get o a.
Proof.
  intros Hne. unfold set, create. destruct (has o k).
  - now apply get_update_other.
  - destruct (array_index k).
    + now apply get_insert_index_other.
    + now apply get_app_other.
Qed.

(** ** Entries *)

Lemma In_update (o : Obj) (k a : string) (v b : value) :
  In (a, b) (update o k v) -> (a, b) = (k, v) \/ In (a, b) o.
Proof.
  induction o as [|[k' v'] o IH]; simpl; [tauto|].
  destruct (String.eqb_spec k' k) as [->|Hk]; simpl; intuition.
Qed.

Lemma In_insert_index (o : Obj) (n : N) (k a : string) (v b : value) :
  In (a, b) (insert_index o n k v) -> (a, b) = (k, v) \/ In (a, b) o.
Proof.
  induction o as [|[k' v'] o IH]; simpl.
  - intuition.
  - destruct (array_index k') as [m|]; [destruct (m <? n)%N|]; simpl;
      intuition.
Qed.

Lemma In_set (o : Obj) (k a : string) (v b : value) :
  In (a, b) (set o k v) -> (a, b) = (k, v) \/ In (a, b) o.
Proof.
  unfold set, create. destruct (has o k).
  - apply In_update.
  - destruct (array_index k).
    + apply In_insert_index.
    + rewrite in_app_iff. simpl. intuition.
Qed.

Lemma In_get (o : Obj) (k : string) (v : value) :
  NoDup (keys o) -> In (k, v) o -> get o k = v.
Proof.
  induction o as [|[k' v'] o IH]; simpl; [tauto|].
  intros ND [E|H].
  - injection E as -> ->. now rewrite String.eqb_refl.
  - inversion ND as [|? ? Hnot ND']; subst.
    destruct (String.eqb_spec k' k) as [->|_]; [|auto].
    exfalso. apply Hnot. change k with (fst (k, v)). now apply in_map.
Qed.

Lemma get_In (o : Obj) (k : string) :
  In k (keys o) -> In (k, get o k) o.
Proof.
  induction o as [|[k' v'] o IH]; simpl; [tauto|].
  destruct (String.eqb_spec k' k) as [->|Hk]; [now left|].
  intros [E|H]; [congruence | right; auto].
Qed.

End ObjectFacts.

(* ================================================================== *)
(** * Properties: the order of properties *)
(* ================================================================== *)

Section OrderFacts.

Lemma ordered_keys_NoDup (ks : list string) : ordered_keys ks -> NoDup ks.
Proof. induction 1; constructor; assumption. Qed.

Lemma precedes_index_other (k k' : string) (n : N) :
  array_index k = Some n -> array_index k' = None -> precedes k k'.
Proof. unfold precedes. now intros -> ->. Qed.

Lemma precedes_none (k k' : string) :
  array_index k' = None -> precedes k k'.
Proof. unfold precedes. intros ->. now destruct (array_index k). Qed.

(** After a key that is no array index come only such keys. *)
Lemma precedes_from_other (k k' : string) :
  array_index k = None -> precedes k k' -> array_index k' = None.
Proof.
  unfold precedes. intros ->. destruct (array_index k'); [tauto | reflexivity].
Qed.

Lemma ordered_append (ks : list string) (k : string) :
  array_index k = None -> ~ In k ks ->
  ordered_keys ks -> ordered_keys (ks ++ [k]).
Proof.
  intros Hk Hnot H. induction H as [|k0 ks Hk0 Hpre H IH]; simpl.
  - constructor; [tauto | simpl; tauto | constructor].
  - simpl in Hnot. constructor.
    + rewrite in_app_iff. simpl. intuition congruence.
    + intros k' Hin. apply in_app_iff in Hin as [Hin|[<-|[]]]; auto.
      now apply precedes_none.
    + apply IH. tauto.
Qed.

Lemma ordered_insert_index (o : Obj) (n : N) (k : string) (v : value) :
  array_index k = Some n -> ~ In k (keys o) ->
  ordered_keys (keys o) -> ordered_keys (keys (insert_index o n k v)).
Proof.
  intros Hk. induction o as [|[k0 v0] o IH]; simpl; intros Hnot H.
  - constructor; [tauto | simpl; tauto | constructor].
  - inversion H as [|? ? Hk0 Hpre H']; subst.
    destruct (array_index k0) as [m|] eqn:Hm.
    + destruct (N.ltb_spec m n) as [Hlt|Hge]; simpl.
      * constructor.
        -- rewrite In_keys_insert_index. intuition congruence.
        -- intros k' Hin. apply In_keys_insert_index in Hin as [->|Hin]; auto.
           unfold precedes. now rewrite Hm, Hk.
        -- apply IH; tauto.
      * constructor; [simpl; tauto | | exact H].
        assert (Hnm : (n < m)%N).
        { destruct (N.eq_dec n m) as [->|Hne]; [|lia].
          exfalso. apply Hnot. left. eapply array_index_inj; eauto. }
        intros k' [<-|Hin].
        -- unfold precedes. now rewrite Hk, Hm.
        -- specialize (Hpre k' Hin). unfold precedes in *.
           rewrite Hm in Hpre. rewrite Hk.
           destruct (array_index k'); [lia | exact I].
    + simpl. constructor; [simpl; tauto | | exact H].
      intros k' [<-|Hin].
      * eapply precedes_index_other; eauto.
      * eapply precedes_index_other; eauto.
        eapply precedes_from_other; eauto.
Qed.

(** Assignment keeps the object well formed. *)
Lemma well_formed_set (o : Obj) (k : string) (v : value) :
  well_formed o -> well_formed (set o k v).
Proof.
  unfold well_formed, set, create. fold (keys o). intros H.
  destruct (has o k) eqn:Hhas.
  - fold (keys (update o k v)). now rewrite keys_update.
  - apply has_false_iff in Hhas. destruct (array_index k) eqn:Hk.
    + now apply ordered_insert_index.
    + fold (keys (o ++ [(k, v)])). rewrite keys_app. now apply ordered_append.
Qed.

Lemma ordered_app_inv (l1 l2 : list string) (k : string) :
  ordered_keys (l1 ++ k :: l2) ->
  ~ In k l1 /\ forall k', In k' l1 -> precedes k' k.
Proof.
  induction l1 as [|k1 l1 IH]; simpl; intros H.
  - split; [tauto | intros ? []].
  - inversion H as [|? ? Hnot Hpre H']; subst.
    destruct (IH H') as [Hk Hall]. split.
    + intros [->|Hin]; [|tauto].
      apply Hnot. rewrite in_app_iff. simpl. tauto.
    + intros k' [<-|Hin]; [|auto].
      apply Hpre. rewrite in_app_iff. simpl. tauto.
Qed.

(** A new array index above all the keys of the object goes last. *)
Lemma insert_index_last (o : Obj) (n : N) (k : string) (v : value) :
  array_index k = Some n ->
  (forall k', In k' (keys o) -> precedes k' k) ->
  insert_index o n k v = o ++ [(k, v)].
Proof.
  intros Hk. induction o as [|[k0 v0] o IH]; simpl; intros Hall;
    [reflexivity|].
  pose proof (Hall k0 (or_introl eq_refl)) as H0. unfold precedes in H0.
  rewrite Hk in H0. destruct (array_index k0) as [m|]; [|tauto].
  apply N.ltb_lt in H0. rewrite H0. f_equal. apply IH. auto.
Qed.

(** Creating a key that may follow all the keys of the object appends it. *)
Lemma create_last (o : Obj) (k : string) (v : value) :
  (forall k', In k' (keys o) -> precedes k' k) ->
  create o k v = o ++ [(k, v)].
Proof.
  intros Hall. unfold create. destruct (array_index k) eqn:Hk;
    [now apply insert_index_last | reflexivity].
Qed.

End OrderFacts.

(* ================================================================== *)
(** * Properties: the REST parameter encoding *)
(* ================================================================== *)

Section EncodingFacts.

Lemma fixedKeyOf_fixed (k : string) (v : value) :
  fixedKeyOf (fixedKeyOf k v) v = fixedKeyOf k v.
Proof.
  unfold fixedKeyOf. destruct (isArray v); [|reflexivity].
  apply toArrayKey_fixed, endsWith_toArrayKey.
Qed.

(** The result is a well-formed object at every turn of the loop. *)
Lemma loop_well_formed (p : Obj) (ks : list string) :
  forall r, well_formed r -> well_formed (fold_left (assignFixed p) ks r).
Proof.
  induction ks as [|k ks IH]; simpl; intros r H; [exact H|].
  apply IH. unfold assignFixed. now apply well_formed_set.
Qed.

Lemma loop_encoded (p : Obj) (ks : list string) :
  forall r, encoded r -> encoded (fold_left (assignFixed p) ks r).
Proof.
  induction ks as [|k ks IH]; simpl; intros r H; [exact H|].
  apply IH. intros a b Hin. unfold assignFixed in Hin.
  apply In_set in Hin as [E|Hin]; [|now apply H].
  injection E as -> ->. apply fixedKeyOf_fixed.
Qed.

Lemma fixArrayQueryParams_well_formed (p : Obj) :
  well_formed (fixArrayQueryParams p).
Proof. apply loop_well_formed. constructor. Qed.

Lemma fixArrayQueryParams_encoded (p : Obj) :
  encoded (fixArrayQueryParams p).
Proof. apply loop_encoded. intros k v []. Qed.

(** The loop over a well-formed object whose keys are all encoded already
    builds the object again, property by property. *)
Lemma loop_rebuilds (q : Obj) :
  well_formed q -> encoded q ->
  forall l2 l1,
    q = l1 ++ l2 -> fold_left (assignFixed q) (keys l2) l1 = q.
Proof.
  intros Hwf Henc. induction l2 as [|[k v] l2 IH]; intros l1 Hq; simpl.
  - now rewrite app_nil_r in Hq.
  - assert (Hin : In (k, v) q) by (rewrite Hq, in_app_iff; simpl; tauto).
    assert (Hget : get q k = v)
      by (apply In_get; [now apply ordered_keys_NoDup | exact Hin]).
    assert (Hkeys : keys q = keys l1 ++ k :: keys l2)
      by (rewrite Hq; apply keys_app).
    unfold well_formed in Hwf. fold (keys q) in Hwf. rewrite Hkeys in Hwf.
    apply ordered_app_inv in Hwf as [Hnot Hall].
    change (assignFixed q l1 k)
      with (set l1 (fixedKeyOf k (get q k)) (get q k)).
    rewrite Hget, (Henc k v Hin).
    unfold set. apply has_false_iff in Hnot. rewrite Hnot.
    rewrite create_last by exact Hall.
    apply IH. rewrite Hq, <- app_assoc. reflexivity.
Qed.

(** A key that no key of [ks] is encoded to keeps its value. *)
Lemma loop_get_other (p : Obj) (a : string) (ks : list string) :
  forall r,
    (forall k, In k ks -> fixedKeyOf k (get p k) <> a) ->
    get (fold_left (assignFixed p) ks r) a = get r a.
Proof.
  induction ks as [|k ks IH]; simpl; intros r H; [reflexivity|].
  rewrite IH by auto. unfold assignFixed. apply get_set_other.
  intros E. apply (H k); auto.
Qed.

(** Without collisions the encoded key of each key holds its value. *)
Lemma loop_get_encoded (p : Obj) (ks : list string) :
  NoDup ks ->
  (forall k1 k2, In k1 ks -> In k2 ks ->
     fixedKeyOf k1 (get p k1) = fixedKeyOf k2 (get p k2) -> k1 = k2) ->
  forall r k, In k ks ->
    get (fold_left (assignFixed p) ks r) (fixedKeyOf k (get p k)) = get p k.
Proof.
  induction ks as [|k0 ks IH]; simpl; intros ND Hinj r k Hin; [tauto|].
  inversion ND as [|? ? Hnot ND']; subst. destruct Hin as [->|Hin].
  - rewrite loop_get_other.
    + unfold assignFixed. apply get_set_same.
    + intros k1 H1 E. apply Hnot.
      rewrite <- (Hinj k1 k); auto.
  - apply IH; auto.
Qed.

Lemma loop_keys (p : Obj) (a : string) (ks : list string) :
  forall r,
    In a (keys (fold_left (assignFixed p) ks r)) <->
    In a (keys r) \/ exists k, In k ks /\ a = fixedKeyOf k (get p k).
Proof.
  induction ks as [|k ks IH]; simpl; intros r.
  - split; [tauto | intros [H|(k & [] & _)]; exact H].
  - rewrite IH.
    change (assignFixed p r k)
      with (set r (fixedKeyOf k (get p k)) (get p k)).
    rewrite In_keys_set. split.
    + intros [[->|H]|(k' & H & E)]; eauto 6.
    + intros [H|(k' & [<-|H] & E)]; eauto 6.
Qed.

End EncodingFacts.

Section EncodingClaims.

Lemma ids_record_NoDup : NoDup (keys ids_record).
Proof.
  repeat constructor; simpl; intuition discriminate.
Qed.

Lemma ids_record_collision_free : collision_free ids_record.
Proof.
  intros k1 k2 H1 H2 E. simpl in H1, H2.
  destruct H1 as [<-|[<-|[]]]; destruct H2 as [<-|[<-|[]]];
    vm_compute in E; congruence.
Qed.




(** C8: the encoding is idempotent: encoding an encoded record gives the
    encoded record again, with the same properties in the same order. *)
Theorem fixArrayQueryParams_idempotent (p : Obj) :
  fixArrayQueryParams (fixArrayQueryParams p) = fixArrayQueryParams p.
Proof.
  unfold fixArrayQueryParams at 1.
  apply (loop_rebuilds (fixArrayQueryParams p)
           (fixArrayQueryParams_well_formed p)
           (fixArrayQueryParams_encoded p)
           (fixArrayQueryParams p) []).
  reflexivity.
Qed.

End EncodingClaims.

(* ================================================================== *)
(** * Properties: the subscription adapter *)
(* ================================================================== *)

Section SubscriptionFacts.

Import Subscriptions.

(** [str_includes] holds exactly when the needle occurs in the haystack. *)
Lemma str_includes_iff (haystack needle : string) :
  str_includes haystack needle = true <->
  exists pre post, haystack = (pre ++ needle ++ post)%string.
Proof.
  induction haystack as [|c s IH]; cbn [str_includes].
  - rewrite prefix_iff. split.
    + intros [post H]. now exists ""%string, post.
    + intros (pre & post & H). destruct pre; [|discriminate]. now exists post.
  - rewrite orb_true_iff, prefix_iff, IH. split.
    + intros [[post H]|(pre & post & H)].
      * now exists ""%string, post.
      * exists (String c pre), post. simpl. now rewrite H.
    + intros (pre & post & H). destruct pre as [|a pre]; simpl in H.
      * left. now exists post.
      * right. injection H as _ H. now exists pre, post.
Qed.

(** The closure drops a call exactly when the first argument is a string
    that contains the text. *)
Lemma isNoSubscriptionWarning_iff (args : list value) :
  isNoSubscriptionWarning args = true <->
  exists s rest pre post,
    args = VStr s :: rest /\
    s = (pre ++ no_subscription_text ++ post)%string.
Proof.
  unfold isNoSubscriptionWarning. split.
  - destruct args as [|[| | | |s| |] rest]; try discriminate.
    intros H. apply str_includes_iff in H as (pre & post & H).
    now exists s, rest, pre, post.
  - intros (s & rest & pre & post & -> & H).
    apply str_includes_iff. now exists pre, post.
Qed.

(** The patched [subscribe] looks the type up in the alias table. *)
Lemma subscribe_lookup {S H} (oldSubscribe : string -> list value -> Code S H)
    (type : string) (rest : list value) :
  subscribe oldSubscribe type rest =
  match lookup_alias alias_table type with
  | Some wire => suppressNoSubscriptionExistsWarning (oldSubscribe wire rest)
  | None => oldSubscribe type rest
  end.
Proof.
  unfold subscribe, alias_table, lookup_alias.
  rewrite !(String.eqb_sym _ type).
  destruct (String.eqb type "alchemy_fullPendingTransactions");
    destruct (String.eqb type "alchemy_newFullPendingTransactions");
    destruct (String.eqb type "alchemy_filteredNewFullPendingTransactions");
    destruct (String.eqb type "alchemy_filteredPendingTransactions");
    destruct (String.eqb type "alchemy_filteredFullPendingTransactions");
    reflexivity.
Qed.

Lemma lookup_alias_None (table : list (string * string)) (type : string) :
  ~ In type (map fst table) -> lookup_alias table type = None.
Proof.
  induction table as [|[public wire] table IH]; simpl; intros H;
    [reflexivity|].
  destruct (String.eqb_spec public type) as [->|_]; [tauto|].
  apply IH. tauto.
Qed.

(** One call reaches the underlying subscribe when the suppressing wrapper
    runs it. *)
Lemma recording_suppressed {S H}
    (underlying : string -> list value -> Code S H)
    (wire : string) (rest : list value) (w : World (S * Calls)) :
  snd (host (snd (suppressNoSubscriptionExistsWarning
                    (recording underlying wire rest) w)))
  = snd (host w) ++ [(wire, rest)].
Proof.
  unfold suppressNoSubscriptionExistsWarning, recording. simpl.
  destruct (underlying wire rest _) as [result w']. reflexivity.
Qed.

Lemma recording_plain {S H}
    (underlying : string -> list value -> Code S H)
    (wire : string) (rest : list value) (w : World (S * Calls)) :
  snd (host (snd (recording underlying wire rest w)))
  = snd (host w) ++ [(wire, rest)].
Proof.
  unfold recording.
  destruct (underlying wire rest _) as [result w']. reflexivity.
Qed.

End SubscriptionFacts.

Section SubscriptionClaims.

Import Subscriptions.

(** C2: the patched [eth.subscribe] resolves the type through the alias
    table.  Whatever the underlying subscribe does, exactly one call
    reaches it, with the wire name of the type and the remaining arguments
    as they were given; the wire name of both full-pending names is
    [alchemy_newFullPendingTransactions], that of the three filtered names
    is [alchemy_filteredNewFullPendingTransactions], and any other type is
    its own wire name and goes to the underlying subscribe directly. *)
Theorem subscribe_resolves_alias {S H}
    (underlying : string -> list value -> Code S H)
    (type : string) (rest : list value) (w : World (S * Calls)) :
  snd (host (snd (subscribe (recording underlying) type rest w)))
  = snd (host w) ++ [(wireName type, rest)]
  /\ wireName "alchemy_fullPendingTransactions"
     = "alchemy_newFullPendingTransactions"
  /\ wireName "alchemy_newFullPendingTransactions"
     = "alchemy_newFullPendingTransactions"
  /\ wireName "alchemy_filteredNewFullPendingTransactions"
     = "alchemy_filteredNewFullPendingTransactions"
  /\ wireName "alchemy_filteredPendingTransactions"
     = "alchemy_filteredNewFullPendingTransactions"
  /\ wireName "alchemy_filteredFullPendingTransactions"
     = "alchemy_filteredNewFullPendingTransactions"
  /\ (~ In type (map fst alias_table) ->
      wireName type = type /\
      forall oldSubscribe : string -> list value -> Code S H,
        subscribe oldSubscribe type rest = oldSubscribe type rest).
Proof.
  repeat split; try reflexivity.
  - rewrite subscribe_lookup. unfold wireName.
    destruct (lookup_alias alias_table type) as [wire|].
    + apply recording_suppressed.
    + apply recording_plain.
  - unfold wireName. now rewrite lookup_alias_None.
  - intros oldSubscribe. rewrite subscribe_lookup.
    now rewrite lookup_alias_None.
Qed.

(** C3: [suppressNoSubscriptionExistsWarning] runs [f] once, with
    [console.warn] set to its closure; whether [f] returns or throws, its
    completion is handed on as it is and [console.warn] is again the
    function found at the start.  The closure drops a call exactly when the
    first argument is a string that contains the text, and hands every other
    call to the function found at the start. *)
Theorem suppress_restores_console_warn {S T}
    (host_warn : nat -> list value -> Code S value)
    (f : Code S T) (w : World S) :
  let during := set_console_warn w (Suppressing (console_warn w)) in
  suppressNoSubscriptionExistsWarning f w
  = (fst (f during), set_console_warn (snd (f during)) (console_warn w))
  /\ console_warn (snd (suppressNoSubscriptionExistsWarning f w))
     = console_warn w
  /\ (forall args w',
        call_warn host_warn (console_warn during) args w'
        = if isNoSubscriptionWarning args then (Normal VUndefined, w')
          else call_warn host_warn (console_warn w) args w')
  /\ (forall args,
        isNoSubscriptionWarning args = true <->
        exists s rest pre post,
          args = VStr s :: rest /\
          s = (pre ++ " doesn't exist. Subscribing anyway." ++ post)%string).
Proof.
  intros during. unfold suppressNoSubscriptionExistsWarning. fold during.
  destruct (f during) as [result w2]. simpl.
  repeat split; try reflexivity; apply isNoSubscriptionWarning_iff.
Qed.

End SubscriptionClaims.

Section SubscriptionWitnesses.

Import Subscriptions.

Lemma logs_not_aliased : ~ In "logs" (map fst alias_table).
Proof. simpl. intuition discriminate. Qed.

Lemma subscribe_resolves_alias_witness :
  ~ In "logs" (map fst alias_table) /\ wireName "logs" = "logs".
Proof.
  split; [exact logs_not_aliased|].
  pose proof (subscribe_resolves_alias (S := unit) (H := unit)
                (fun _ _ w => (Normal tt, w)) "logs" []
                (mkWorld (HostWarn 0) (tt, []))) as H.
  destruct H as (_ & _ & _ & _ & _ & _ & H).
  exact (proj1 (H logs_not_aliased)).
Defined.

End SubscriptionWitnesses.

Section ValidateArgsClaims.

Import Subscriptions.

Context {X : Type}.

Lemma full_not_filtered (method : string) :
  includes full_names method = true ->
  includes filtered_names method = false.
Proof.
  unfold includes, full_names, filtered_names. simpl.
  destruct (String.eqb_spec method "alchemy_fullPendingTransactions") as [->|_];
    [reflexivity|].
  destruct (String.eqb_spec method "alchemy_newFullPendingTransactions")
    as [->|_]; [reflexivity | discriminate].
Qed.

Lemma includes_In (l : list string) (x : string) :
  includes l x = true <-> In x l.
Proof.
  unfold includes. rewrite existsb_exists. split.
  - intros (y & Hy & E). apply String.eqb_eq in E. now subst.
  - intros H. exists x. split; [exact H | apply String.eqb_refl].
Qed.

(** C4: the patched [_validateArgs] splits three ways on
    [this.subscriptionMethod].  For the three filtered names nothing is
    validated: any arguments are accepted and the object is left as it is.
    For the two full-pending names the method name is first stored in
    [options.subscription.subscriptionName] (when [options.subscription] is
    there; its other properties, the method name and the rest of the object
    stay), then the original validator runs on the arguments.  For any other
    name the original validator runs on the object as it is. *)
Theorem validateArgs_three_ways
    (oldValidateArgs : Method X) (this : Subscription X) (args : list value) :
  let method := subscriptionMethod this in
  (In method [ "alchemy_filteredNewFullPendingTransactions";
               "alchemy_filteredPendingTransactions";
               "alchemy_filteredFullPendingTransactions" ] ->
   validateArgs oldValidateArgs this args = (Normal tt, this))
  /\ (In method [ "alchemy_fullPendingTransactions";
                  "alchemy_newFullPendingTransactions" ] ->
      validateArgs oldValidateArgs this args
      = oldValidateArgs (recordSubscriptionName this) args
      /\ subscriptionMethod (recordSubscriptionName this) = method
      /\ sub_state (recordSubscriptionName this) = sub_state this
      /\ (options_subscription this = None ->
          recordSubscriptionName this = this)
      /\ (forall subscription,
            options_subscription this = Some subscription ->
            exists subscription',
              options_subscription (recordSubscriptionName this)
              = Some subscription'
              /\ get subscription' "subscriptionName" = VStr method
              /\ forall k, k <> "subscriptionName" ->
                   get subscription' k = get subscription k))
  /\ (~ In method [ "alchemy_filteredNewFullPendingTransactions";
                    "alchemy_filteredPendingTransactions";
                    "alchemy_filteredFullPendingTransactions";
                    "alchemy_fullPendingTransactions";
                    "alchemy_newFullPendingTransactions" ] ->
      validateArgs oldValidateArgs this args = oldValidateArgs this args).
Proof.
  intros method. unfold validateArgs. fold method. split; [|split].
  - intros H. apply (includes_In filtered_names) in H. now rewrite H.
  - intros H. apply (includes_In full_names) in H.
    rewrite (full_not_filtered _ H), H.
    unfold recordSubscriptionName. fold method.
    destruct (options_subscription this) as [subscription|] eqn:E.
    + repeat split; try discriminate.
      intros s [= <-]. exists (set subscription "subscriptionName" (VStr method)).
      split; [reflexivity|]. split.
      * apply get_set_same.
      * intros k Hk. now apply get_set_other.
    + repeat split. intros s [=].
  - intros H.
    assert (H1 : includes filtered_names method = false).
    { destruct (includes filtered_names method) eqn:E; [|reflexivity].
      apply includes_In in E. exfalso. apply H.
      unfold filtered_names in E. simpl in *. tauto. }
    assert (H2 : includes full_names method = false).
    { destruct (includes full_names method) eqn:E; [|reflexivity].
      apply includes_In in E. exfalso. apply H.
      unfold full_names in E. simpl in *. tauto. }
    now rewrite H1, H2.
Qed.

End ValidateArgsClaims.

Section ValidateArgsWitness.

Import Subscriptions.

Lemma validateArgs_three_ways_witness :
  let this := mkSubscription "alchemy_fullPendingTransactions" (Some []) tt in
  In (subscriptionMethod this)
     [ "alchemy_fullPendingTransactions";
       "alchemy_newFullPendingTransactions" ]
  /\ validateArgs (fun t _ => (Normal tt, t)) this []
     = (Normal tt,
        mkSubscription "alchemy_fullPendingTransactions"
          (Some [("subscriptionName", VStr "alchemy_fullPendingTransactions")])
          tt).
Proof.
  intros this.
  assert (Hin : In (subscriptionMethod this)
                  [ "alchemy_fullPendingTransactions";
                    "alchemy_newFullPendingTransactions" ])
    by (simpl; tauto).
  split; [exact Hin|].
  destruct (validateArgs_three_ways (fun t _ => (Normal tt, t)) this [])
    as (_ & H & _).
  destruct (H Hin) as (E & _). rewrite E. reflexivity.
Defined.

End ValidateArgsWitness.

(* ================================================================== *)
(** * Properties: configuration and the client object *)
(* ================================================================== *)

Section ConfigClaims.

Import Config.

Context {Provider Middleware : Type}.

(** C6: [fillInConfigDefaults] gives each field that is not set its
    default (3, 1000, 250, the empty list of middlewares, and for
    [writeProvider] the [ethereum] of the window when there is a window,
    [null] when there is none) and hands on each field that is set; an
    absent configuration is the empty one. *)
Theorem fillInConfigDefaults_defaults
    (window : option (EthereumWindow Provider))
    (config : option (AlchemyWeb3Config Provider Middleware)) :
  let given :=
    match config with
    | Some c => c
    | None => mkConfig PUndefined None None None None
    end in
  let full := fillInConfigDefaults window config in
  maxRetries full
  = match given_maxRetries given with Some n => n | None => 3%Z end
  /\ retryInterval full
     = match given_retryInterval given with Some n => n | None => 1000%Z end
  /\ retryJitter full
     = match given_retryJitter given with Some n => n | None => 250%Z end
  /\ jsonRpcSenderMiddlewares full
     = match given_jsonRpcSenderMiddlewares given with
       | Some ms => ms
       | None => []
       end
  /\ writeProvider full
     = match given_writeProvider given, window with
       | PUndefined, Some w => ethereum w
       | PUndefined, None => PNull
       | PNull, _ => PNull
       | PProvider p, _ => PProvider p
       end.
Proof.
  destruct config as [[wp ms mr ri rj]|]; simpl.
  - destruct wp, window; repeat split.
  - destruct window; repeat split.
Qed.

End ConfigClaims.

Section ClientClaims.

Import Config Client.

Context {St Provider Middleware : Type}.


End ClientClaims.

(* ================================================================== *)
(** * Properties: token balances *)
(* ================================================================== *)

Section TokenBalanceFacts.

Import TokenBalances.

Variable decodeParameter : string -> value -> value.

Lemma notNullish_has (o : Obj) (k : string) :
  notNullish (get o k) = true -> has o k = true.
Proof.
  induction o as [|[k' v'] o IH]; simpl; [discriminate|].
  destruct (String.eqb k' k); simpl; auto.
Qed.

(** Assigning to a property the object has keeps its keys and their
    order. *)
Lemma keys_set_present (o : Obj) (k : string) (v : value) :
  has o k = true -> keys (set o k v) = keys o.
Proof. unfold set. intros ->. apply keys_update. Qed.

Lemma fixBalance_fixed (b : value) :
  isObject b = true ->
  exists b', fixBalance decodeParameter b = Normal b'
             /\ entry_fixed decodeParameter b b'.
Proof.
  destruct b as [| | | | | |fields]; try discriminate. intros _.
  unfold fixBalance, entry_fixed.
  destruct (notNullish (get fields "tokenBalance")) eqn:E.
  - eexists. split; [reflexivity|]. exists fields. split; [reflexivity|].
    rewrite E. eexists. split; [reflexivity|]. unfold spread_with.
    split; [|split].
    + apply keys_set_present. now apply notNullish_has.
    + apply get_set_same.
    + intros k Hk. now apply get_set_other.
  - eexists. split; [reflexivity|]. exists fields. split; [reflexivity|].
    now rewrite E.
Qed.

Lemma map_throwing_fixed (balances : list value) :
  forallb isObject balances = true ->
  exists fixed,
    map_throwing (fixBalance decodeParameter) balances = Normal fixed
    /\ Forall2 (entry_fixed decodeParameter) balances fixed.
Proof.
  induction balances as [|b balances IH]; cbn [forallb map_throwing]; intros H.
  - exists []. split; [reflexivity | constructor].
  - apply andb_true_iff in H as [Hb H].
    destruct (fixBalance_fixed b Hb) as (b' & -> & Hfix).
    destruct (IH H) as (fixed & -> & Hall).
    exists (b' :: fixed). split; [reflexivity | now constructor].
Qed.


End TokenBalanceFacts.

Section TokenBalanceWitness.

Import TokenBalances.


Example sample_response_processed :
  processTokenBalanceResponse sample_decoder sample_response
  = Normal
      [ ("address", VStr "0xabc");
        ("tokenBalances",
         VArr [ VObj [ ("contractAddress", VStr "0x01");
                       ("tokenBalance", VStr "16");
                       ("error", VNull) ];
                VObj [ ("contractAddress", VStr "0x02");
                       ("tokenBalance", VNull);
                       ("error", VStr "execution reverted") ] ]) ].
Proof. reflexivity. Qed.

End TokenBalanceWitness.

(* ================================================================== *)
(** * Properties: the retrying sender *)
(* ================================================================== *)

Section RetryFacts.

Import Retry.

Variable transport : nat -> attempt.
Variable jitter : nat -> Z.
Variable retryInterval : Z.

(** A run of [j] Transient failures uses up [j] retries and [j] attempts. *)
Lemma send_from_skip (j : nat) :
  forall retries k waited,
    (forall i, k <= i < k + j -> exists e, transport i = Fails Transient e) ->
    exists waited',
      send_from transport jitter retryInterval (j + retries) k waited
      = send_from transport jitter retryInterval retries (k + j) waited'.
Proof.
  induction j as [|j IH]; intros retries k waited H.
  - exists waited. now rewrite Nat.add_0_r.
  - destruct (H k) as [e He]; [lia|].
    cbn [Nat.add send_from]. rewrite He.
    destruct (IH retries (S k) (waited ++ [(retryInterval + jitter k)%Z]))
      as [waited' E].
    + intros i Hi. apply H. lia.
    + exists waited'. rewrite E. f_equal. lia.
Qed.

(** C7: with [maxRetries = N], N Transient failures and then a success
    give the success value after exactly N+1 attempts; a Permanent failure
    at any attempt that is reached is handed on at once, with no attempt
    after it. *)
Theorem send_retry_policy (N : nat) :
  (forall v,
     transient_until transport N ->
     transport N = Succeeds v ->
     result (send transport jitter retryInterval N) = Bridge.Fulfilled v
     /\ attempts (send transport jitter retryInterval N) = N + 1)
  /\ (forall k e,
        k <= N ->
        transient_until transport k ->
        transport k = Fails Permanent e ->
        result (send transport jitter retryInterval N) = Bridge.Rejected e
        /\ attempts (send transport jitter retryInterval N) = k + 1).
Proof.
  unfold send, transient_until. split.
  - intros v Ht Hs.
    destruct (send_from_skip N 0 0 []) as [waited' E].
    { intros i Hi. apply Ht. lia. }
    rewrite Nat.add_0_r in E. rewrite E. cbn [Nat.add send_from].
    rewrite Hs. simpl. split; [reflexivity | lia].
  - intros k e Hk Ht Hp.
    destruct (send_from_skip k (N - k) 0 []) as [waited' E].
    { intros i Hi. apply Ht. lia. }
    replace (k + (N - k)) with N in E by lia. rewrite E.
    cbn [Nat.add]. destruct (N - k); cbn [send_from]; rewrite Hp; simpl;
      (split; [reflexivity | lia]).
Qed.

End RetryFacts.

Section RetryWitness.

Import Retry.

Lemma send_retry_policy_witness :
  transient_until sample_transport 2
  /\ sample_transport 2 = Succeeds (VNum 7)
  /\ attempts (send sample_transport (fun _ => 0%Z) 1000%Z 2) = 3.
Proof.
  assert (Ht : transient_until sample_transport 2).
  { intros k Hk. exists (VStr "rate limited"). unfold sample_transport.
    apply Nat.ltb_lt in Hk. now rewrite Hk. }
  split; [exact Ht|]. split; [reflexivity|].
  destruct (send_retry_policy sample_transport (fun _ => 0%Z) 1000%Z 2)
    as [H _].
  exact (proj2 (H (VNum 7) Ht eq_refl)).
Defined.

End RetryWitness.

(* ================================================================== *)
(** * Properties: the promise/callback bridge *)
(* ================================================================== *)

Section BridgeFacts.

Import Bridge.

Context {S : Type}.

Lemma nth_error_last_two (cells : list (cell S)) (a b : cell S) :
  nth_error (cells ++ [a; b]) (length cells) = Some a
  /\ nth_error (cells ++ [a; b]) (Datatypes.S (length cells)) = Some b.
Proof. induction cells; simpl; auto. Qed.

Lemma replace_cell_first (cells : list (cell S)) (a b c : cell S) :
  replace_cell S (cells ++ [a; b]) (length cells) c = cells ++ [c; b].
Proof. induction cells; simpl; [reflexivity | now f_equal]. Qed.

Lemma replace_cell_second (cells : list (cell S)) (a b c : cell S) :
  replace_cell S (cells ++ [a; b]) (Datatypes.S (length cells)) c
  = cells ++ [a; c].
Proof. induction cells; simpl; [reflexivity | now f_equal]. Qed.

Lemma registers (e : event) (callback : Web3Callback S)
    (processResponse : Processor) (l : Loop S) :
  (let (promise, l1) := new_promise S l in
   let (sent, l2) := new_promise S (log S e l1) in
   let l3 := then_ S sent (AsyncReturn S processResponse promise) l2 in
   let l4 := callWhenDone S promise callback l3 in
   (promise, l4))
  = (length (promises l), registered e callback processResponse l).
Proof.
  unfold new_promise, log, callWhenDone, then_, registered. cbn [promises fst snd jobs trace host].
  rewrite <- !app_assoc. cbn [app].
  rewrite length_app. cbn [length]. rewrite Nat.add_1_r.
  destruct (nth_error_last_two (promises l) (mkCell S None []) (mkCell S None []))
    as [_ ->].
  cbn [state reactions app promises].
  rewrite replace_cell_second.
  destruct (nth_error_last_two (promises l) (mkCell S None [])
              (mkCell S None [AsyncReturn S processResponse (length (promises l))]))
    as [-> _].
  cbn [state reactions app promises jobs trace host].
  now rewrite replace_cell_first.
Qed.

(** Once the request settles with [s], two jobs run: the body of the
    [async] arrow settles the returned promise, then the callback is
    called. *)
Lemma registered_runs (e : event) (callback : Web3Callback S)
    (processResponse : Processor) (l : Loop S) (s : settlement) (fuel : nat) :
  at_rest l ->
  let promise := length (promises l) in
  let settled :=
    match s with
    | Fulfilled result => settle_with (processResponse result)
    | Rejected error => Rejected error
    end in
  drain (2 + fuel)
    (settle (Datatypes.S promise) s (registered e callback processResponse l))
  = mkLoop
      (promises l ++ [mkCell S (Some settled) []; mkCell S (Some s) []])
      []
      (trace l
         ++ [ e; EvSettled (Datatypes.S promise) s; EvSettled promise settled;
              EvCallback (fst (callback_arguments settled))
                (snd (callback_arguments settled)) ])
      (snd (callback (fst (callback_arguments settled))
              (snd (callback_arguments settled)) (host l))).
Proof.
  intros Hrest promise settled. unfold at_rest in Hrest. subst promise.
  unfold settle, registered. cbn [promises jobs trace host].
  destruct (nth_error_last_two (promises l)
              (mkCell S None [WhenDone S callback])
              (mkCell S None [AsyncReturn S processResponse (length (promises l))]))
    as [_ ->].
  cbn [state reactions]. rewrite replace_cell_second, Hrest.
  cbn [map app Nat.add drain jobs promises trace host].
  assert (Hjob :
    run_job S (AsyncReturn S processResponse (length (promises l)), s)
      (mkLoop
         (promises l ++ [mkCell S None [WhenDone S callback]; mkCell S (Some s) []])
         []
         ((trace l ++ [e]) ++ [EvSettled (Datatypes.S (length (promises l))) s])
         (host l))
    = mkLoop
        (promises l ++ [mkCell S (Some settled) []; mkCell S (Some s) []])
        [(WhenDone S callback, settled)]
        (((trace l ++ [e]) ++ [EvSettled (Datatypes.S (length (promises l))) s])
           ++ [EvSettled (length (promises l)) settled])
        (host l)).
  { assert (Hsettle : forall o,
      settle (length (promises l)) o
        (mkLoop
           (promises l ++ [mkCell S None [WhenDone S callback]; mkCell S (Some s) []])
           []
           ((trace l ++ [e]) ++ [EvSettled (Datatypes.S (length (promises l))) s])
           (host l))
      = mkLoop
          (promises l ++ [mkCell S (Some o) []; mkCell S (Some s) []])
          [(WhenDone S callback, o)]
          (((trace l ++ [e]) ++ [EvSettled (Datatypes.S (length (promises l))) s])
             ++ [EvSettled (length (promises l)) o])
          (host l)).
    { intros o. unfold settle. cbn [promises jobs trace host].
      destruct (nth_error_last_two (promises l)
                  (mkCell S None [WhenDone S callback]) (mkCell S (Some s) []))
        as [-> _].
      cbn [state reactions]. now rewrite replace_cell_first. }
    unfold run_job, settled. destruct s; apply Hsettle. }
  rewrite Hjob. cbn [jobs promises trace host].
  assert (Hcall :
    run_job S (WhenDone S callback, settled)
      (mkLoop
         (promises l ++ [mkCell S (Some settled) []; mkCell S (Some s) []])
         []
         (((trace l ++ [e]) ++ [EvSettled (Datatypes.S (length (promises l))) s])
            ++ [EvSettled (length (promises l)) settled])
         (host l))
    = mkLoop
        (promises l ++ [mkCell S (Some settled) []; mkCell S (Some s) []])
        []
        (trace l
           ++ [ e; EvSettled (Datatypes.S (length (promises l))) s; EvSettled (length (promises l)) settled;
                EvCallback (fst (callback_arguments settled))
                  (snd (callback_arguments settled)) ])
        (snd (callback (fst (callback_arguments settled))
                (snd (callback_arguments settled)) (host l)))).
  { unfold run_job, invoke. cbn [promises jobs trace host].
    destruct settled; cbn [callback_arguments fst snd];
      rewrite <- !app_assoc; reflexivity. }
  rewrite Hcall. destruct fuel; reflexivity.
Qed.

(** Until the request settles nothing runs. *)
Lemma registered_waits (e : event) (callback : Web3Callback S)
    (processResponse : Processor) (l : Loop S) (fuel : nat) :
  at_rest l ->
  drain fuel (registered e callback processResponse l)
  = registered e callback processResponse l.
Proof.
  unfold at_rest. intros Hrest. destruct fuel; [reflexivity|].
  cbn [drain registered jobs]. now rewrite Hrest.
Qed.

Lemma registered_pending (e : event) (callback : Web3Callback S)
    (processResponse : Processor) (l : Loop S) :
  status (registered e callback processResponse l) (length (promises l)) = None.
Proof.
  unfold status, registered. cbn [promises].
  now destruct (nth_error_last_two (promises l)
                  (mkCell S None [WhenDone S callback])
                  (mkCell S None
                     [AsyncReturn S processResponse (length (promises l))]))
    as [-> _].
Qed.

End BridgeFacts.

Section BridgeClaims.

Import Bridge.

Context {S : Type}.

Lemma registered_delivers (e : event)
    (callback : option (Web3Callback S)) (processResponse : option Processor)
    (l : Loop S) (s : settlement) (fuel : nat) :
  at_rest l ->
  delivers e callback processResponse l
    (length (promises l),
     registered e (Config.orDefault callback (noop (S := S)))
       (Config.orDefault processResponse identity) l)
    s fuel.
Proof.
  intros Hrest. unfold delivers. cbn [fst snd].
  rewrite registered_runs by exact Hrest.
  rewrite registered_waits by exact Hrest.
  cbn [trace jobs host].
  split; [reflexivity|]. split; [apply registered_pending|].
  split; [reflexivity|]. split.
  { unfold outcome. destruct s; reflexivity. }
  split.
  { unfold status, outcome. cbn [promises].
    match goal with
    | |- context [nth_error (_ ++ [?a; ?b]) _] =>
        destruct (nth_error_last_two (promises l) a b) as [-> _]
    end.
    destruct s; reflexivity. }
  split; [reflexivity|].
  destruct callback as [cb|]; cbn [Config.orDefault].
  - unfold outcome. destruct s; reflexivity.
  - reflexivity.
Qed.


End BridgeClaims.

Section BridgeWitness.

Import Bridge.


End BridgeWitness.

(* ================================================================== *)
(** * Worked examples *)
(* ================================================================== *)

Section Examples.

Example endsWith_suffix : endsWith "ids[]" "[]" = true.
Proof. reflexivity. Qed.

Example endsWith_inner : endsWith "[]ids" "[]" = false.
Proof. reflexivity. Qed.

Example endsWith_short : endsWith "]" "[]" = false.
Proof. reflexivity. Qed.

Example endsWith_twice : endsWith "ids[][]" "[]" = true.
Proof. reflexivity. Qed.

Example toArrayKey_once : toArrayKey (toArrayKey "ids") = "ids[]".
Proof. reflexivity. Qed.

(** Array-index keys keep their place at the front; an array under such a
    key moves behind them with its new name. *)
Example fixArrayQueryParams_index_keys :
  fixArrayQueryParams
    [("1", VNum 2); ("7", VArr []); ("10", VNum 3); ("b", VNum 4)]
  = [("1", VNum 2); ("10", VNum 3); ("7[]", VArr []); ("b", VNum 4)].
Proof. reflexivity. Qed.

Example array_index_canonical :
  array_index "10" = Some 10%N /\ array_index "010" = None
  /\ array_index "0" = Some 0%N /\ array_index "4294967295" = None
  /\ array_index "4294967294" = Some 4294967294%N.
Proof. repeat split. Qed.

(** Three Transient failures with two retries allowed: the last error comes
    back after three attempts. *)
Example send_exhausted :
  Retry.send (fun _ => Retry.Fails Retry.Transient (VStr "timeout"))
    (fun _ => 100%Z) 1000%Z 2
  = Retry.mkReport (Bridge.Rejected (VStr "timeout")) 3 [1100%Z; 1100%Z].
Proof. reflexivity. Qed.

(** A warning of web3 about an unknown subscription is dropped, another one
    is not. *)
Example warning_dropped :
  Subscriptions.isNoSubscriptionWarning
    [VStr "Subscription alchemy_newFullPendingTransactions doesn't exist. Subscribing anyway."]
  = true
  /\ Subscriptions.isNoSubscriptionWarning [VStr "deprecated"] = false
  /\ Subscriptions.isNoSubscriptionWarning [VNum 1] = false.
Proof. repeat split. Qed.

End Examples.

(* ================================================================== *)
(** * Further properties: the REST parameter encoding *)
(* ================================================================== *)

Section EncodingExtras.

Local Open Scope string_scope.

Lemma append_cancel_r (s t u : string) : s ++ u = t ++ u -> s = t.
Proof.
  revert t; induction s as [|c s IH]; intros [|d t] H; simpl in H.
  - reflexivity.
  - exfalso. apply (f_equal String.length) in H. simpl in H.
    rewrite length_append in H. lia.
  - exfalso. apply (f_equal String.length) in H. simpl in H.
    rewrite length_append in H. lia.
  - injection H as -> H. f_equal. now apply IH.
Qed.

Lemma append_not_self (s : string) : s ++ "[]" <> s.
Proof.
  intros H. apply (f_equal String.length) in H.
  rewrite length_append in H. simpl in H. lia.
Qed.

Lemma endsWith_appended (s : string) : endsWith (s ++ "[]") "[]" = true.
Proof. apply endsWith_iff. now exists s. Qed.

(** X1: [endsWith] is the suffix test that [String#endsWith] is, for every
    string and every ending: it holds exactly when the string is some prefix
    followed by the ending.  The empty string ends with the empty ending
    only, though [lastIndexOf] and the difference of the lengths are both -1
    for an ending of length one. *)
Theorem endsWith_tests_suffix (s ending : string) :
  (endsWith s ending = true <-> exists pre, s = pre ++ ending)
  /\ endsWith s "" = true
  /\ endsWith "" ending = String.eqb ending "".
Proof.
  split; [apply endsWith_iff|]. split.
  - apply endsWith_iff. exists s. now rewrite append_empty_r.
  - destruct (String.eqb_spec ending "") as [->|Hne]; [reflexivity|].
    destruct (endsWith "" ending) eqn:E; [|reflexivity].
    apply endsWith_iff in E as [pre E].
    destruct pre; simpl in E; [congruence | discriminate].
Qed.

(** X2: [toArrayKey] always yields a key that ends in "[]", and leaves
    such a key as it is, so applying it twice is applying it once.  Two keys
    get the same array key exactly when they are equal or one is the other
    followed by "[]", the shorter one not ending in "[]". *)
Theorem toArrayKey_clashes (k1 k2 : string) :
  endsWith (toArrayKey k1) "[]" = true
  /\ toArrayKey (toArrayKey k1) = toArrayKey k1
  /\ (toArrayKey k1 = toArrayKey k2 <->
      k1 = k2
      \/ (k1 = k2 ++ "[]" /\ endsWith k2 "[]" = false)
      \/ (k2 = k1 ++ "[]" /\ endsWith k1 "[]" = false)).
Proof.
  split; [apply endsWith_toArrayKey|].
  split; [apply toArrayKey_fixed, endsWith_toArrayKey|].
  unfold toArrayKey. split.
  - destruct (endsWith k1 "[]") eqn:E1; destruct (endsWith k2 "[]") eqn:E2;
      intros H; auto.
    left. now apply append_cancel_r in H.
  - intros [->|[[-> E2]|[-> E1]]].
    + reflexivity.
    + now rewrite endsWith_appended, E2.
    + now rewrite endsWith_appended, E1.
Qed.

(** X3: the keys of a record clash under the encoding exactly when some key
    that holds an array and does not end in "[]" stands beside the same key
    followed by "[]". *)
Theorem collision_free_iff (p : Obj) :
  collision_free p <->
  forall k, In k (keys p) -> isArray (get p k) = true ->
            endsWith k "[]" = false -> ~ In (k ++ "[]") (keys p).
Proof.
  unfold collision_free, fixedKeyOf, toArrayKey. split.
  - intros CF k Hk Ha He Hin.
    specialize (CF k (k ++ "[]") Hk Hin). rewrite Ha, He in CF.
    rewrite endsWith_appended in CF.
    apply (append_not_self k). symmetry. apply CF.
    now destruct (isArray (get p (k ++ "[]"))).
  - intros H k1 k2 H1 H2.
    pose proof (H k1 H1) as C1. pose proof (H k2 H2) as C2.
    destruct (isArray (get p k1)); destruct (isArray (get p k2));
      destruct (endsWith k1 "[]"); destruct (endsWith k2 "[]");
      intros E; auto;
      try (now apply append_cancel_r in E);
      try (exfalso; apply C1; auto; now rewrite E);
      try (exfalso; apply C2; auto; now rewrite <- E).
Qed.

End EncodingExtras.

Section EncodingLoopExtras.

Lemma length_update (o : Obj) (k : string) (v : value) :
  length (update o k v) = length o.
Proof.
  rewrite <- (length_map fst (update o k v)), <- (length_map fst o).
  fold (keys (update o k v)) (keys o). now rewrite keys_update.
Qed.

Lemma length_insert_index (o : Obj) (n : N) (k : string) (v : value) :
  length (insert_index o n k v) = S (length o).
Proof.
  induction o as [|[k' v'] o IH]; simpl; [reflexivity|].
  destruct (array_index k') as [m|]; [destruct (m <? n)%N|]; simpl;
    now rewrite ?IH.
Qed.

Lemma length_set (o : Obj) (k : string) (v : value) :
  length (set o k v) = if has o k then length o else S (length o).
Proof.
  unfold set, create. destruct (has o k).
  - apply length_update.
  - destruct (array_index k).
    + apply length_insert_index.
    + rewrite length_app. simpl. lia.
Qed.

Lemma loop_length (p : Obj) (ks : list string) :
  forall r, length (fold_left (assignFixed p) ks r) <= length r + length ks.
Proof.
  induction ks as [|k ks IH]; simpl; intros r; [lia|].
  specialize (IH (assignFixed p r k)).
  assert (L : length (assignFixed p r k) <= S (length r)).
  { unfold assignFixed. rewrite length_set.
    destruct (has r (fixedKeyOf k (get p k))); lia. }
  lia.
Qed.

(** Every entry of the result was written by some turn of the loop. *)
Lemma loop_entries (p : Obj) (a : string) (b : value) (ks : list string) :
  forall r,
    In (a, b) (fold_left (assignFixed p) ks r) ->
    In (a, b) r
    \/ exists k, In k ks /\ a = fixedKeyOf k (get p k) /\ b = get p k.
Proof.
  induction ks as [|k ks IH]; simpl; intros r H; [now left|].
  apply IH in H as [H|(k' & Hk' & E)].
  - unfold assignFixed in H. apply In_set in H as [E|H]; [|now left].
    injection E as -> ->. right. exists k. auto.
  - right. exists k'. auto.
Qed.





(** X6: whatever the record, the result is a well-formed object (no key
    twice, array-index keys first and ascending), every array in it sits
    under a key that ends in "[]", it has no more entries than the record
    has keys, and each of its entries is the encoded key and the value of
    some key of the record. *)
Theorem fixArrayQueryParams_result_shape (p : Obj) :
  well_formed (fixArrayQueryParams p)
  /\ NoDup (keys (fixArrayQueryParams p))
  /\ (forall k v, In (k, v) (fixArrayQueryParams p) ->
                  isArray v = true -> endsWith k "[]" = true)
  /\ length (fixArrayQueryParams p) <= length p
  /\ (forall k' v', In (k', v') (fixArrayQueryParams p) ->
        exists k, In k (keys p)
                  /\ k' = fixedKeyOf k (get p k) /\ v' = get p k).
Proof.
  pose proof (fixArrayQueryParams_well_formed p) as WF.
  split; [exact WF|]. split; [now apply ordered_keys_NoDup|]. split; [|split].
  - intros k v Hin Ha.
    pose proof (fixArrayQueryParams_encoded p k v Hin) as E.
    unfold fixedKeyOf in E. rewrite Ha in E. rewrite <- E.
    apply endsWith_toArrayKey.
  - pose proof (loop_length p (keys p) []) as H. simpl in H.
    unfold keys in H at 2. rewrite length_map in H. exact H.
  - intros k' v' Hin. apply loop_entries in Hin as [[]|H]. exact H.
Qed.



End EncodingLoopExtras.

(* ================================================================== *)
(** * Further properties: the subscription adapter *)
(* ================================================================== *)

Section SubscriptionExtras.

Import Subscriptions.

Lemma layers_shift (n : nat) (base : WarnFn) :
  layers n (Suppressing base) = Suppressing (layers n base).
Proof. induction n as [|n IH]; simpl; [reflexivity | now rewrite IH]. Qed.

Lemma set_console_warn_twice {S} (w : World S) (a b : WarnFn) :
  set_console_warn (set_console_warn w a) b = set_console_warn w b.
Proof. reflexivity. Qed.

Lemma call_warn_layers {S} (host_warn : nat -> list value -> Code S value)
    (n : nat) (base : WarnFn) (args : list value) (w : World S) :
  call_warn host_warn (layers n base) args w
  = if Nat.ltb 0 n && isNoSubscriptionWarning args
    then (Normal VUndefined, w)
    else call_warn host_warn base args w.
Proof.
  induction n as [|n IH]; cbn [layers call_warn]; [reflexivity|].
  destruct (isNoSubscriptionWarning args) eqn:E.
  - reflexivity.
  - rewrite IH. now rewrite andb_false_r.
Qed.

Lemma nested_runs {S T} (f : Code S T) (n : nat) :
  forall w : World S,
    nested n f w
    = (fst (f (set_console_warn w (layers n (console_warn w)))),
       set_console_warn
         (snd (f (set_console_warn w (layers n (console_warn w)))))
         (if Nat.ltb 0 n then console_warn w
          else console_warn (snd (f w)))).
Proof.
  induction n as [|n IH]; intros w; cbn [nested layers].
  - destruct w as [cw h]. unfold set_console_warn. simpl.
    destruct (f (mkWorld cw h)) as [r [cw' h']]. reflexivity.
  - unfold suppressNoSubscriptionExistsWarning. rewrite IH.
    rewrite set_console_warn_twice. cbn [console_warn set_console_warn].
    rewrite layers_shift. reflexivity.
Qed.

(** X8: calls of [suppressNoSubscriptionExistsWarning] nest.  With [n]
    calls around [f] (one at least), [f] runs once, its completion comes out
    as it is, and [console.warn] is afterwards the function the outermost
    call found; while [f] runs, a warning whose first argument is a string
    with the text is dropped, once, and any other call reaches that
    function as if nothing were wrapped around it. *)
Theorem nested_suppression {S T}
    (host_warn : nat -> list value -> Code S value)
    (f : Code S T) (n : nat) (w : World S) :
  let during := set_console_warn w (layers (Datatypes.S n) (console_warn w)) in
  nested (Datatypes.S n) f w
  = (fst (f during), set_console_warn (snd (f during)) (console_warn w))
  /\ (forall args w',
        call_warn host_warn (console_warn during) args w'
        = if isNoSubscriptionWarning args then (Normal VUndefined, w')
          else call_warn host_warn (console_warn w) args w').
Proof.
  intros during. split.
  - rewrite nested_runs. reflexivity.
  - intros args w'. unfold during. cbn [console_warn set_console_warn].
    rewrite call_warn_layers. reflexivity.
Qed.

Lemma lookup_alias_wire (type wire : string) :
  lookup_alias alias_table type = Some wire ->
  wire = "alchemy_newFullPendingTransactions"
  \/ wire = "alchemy_filteredNewFullPendingTransactions".
Proof.
  unfold alias_table, lookup_alias.
  repeat match goal with
         | |- context [String.eqb ?a type] => destruct (String.eqb a type)
         end;
    intros [= <-] || discriminate; auto.
Qed.

(** X9: a wire name is a public name of itself: subscribing with the wire
    name that a type resolves to does what subscribing with the type does,
    for every type. *)
Theorem subscribe_by_wire_name {S H}
    (oldSubscribe : string -> list value -> Code S H)
    (type : string) (rest : list value) :
  subscribe oldSubscribe (wireName type) rest
  = subscribe oldSubscribe type rest
  /\ wireName (wireName type) = wireName type.
Proof.
  rewrite !subscribe_lookup. unfold wireName.
  destruct (lookup_alias alias_table type) as [wire|] eqn:E.
  - apply lookup_alias_wire in E as [->| ->]; split; reflexivity.
  - rewrite E. split; reflexivity.
Qed.

End SubscriptionExtras.

Section ValidateArgsExtras.

Import Subscriptions.

Context {X : Type}.

Lemma eqb_neq_both (a b : string) :
  a <> b -> String.eqb a b = false /\ String.eqb b a = false.
Proof.
  intros H. split; apply String.eqb_neq; congruence.
Qed.

(** X10: the patched [subscribe] and the patched [_validateArgs] agree on
    the names.  The types that [subscribe] rewrites are exactly the names
    the validator treats apart, and the wire name that [subscribe] passes on
    falls in the same class as the type it stands for.  So on a
    subscription object that carries the wire name of [type], the validator
    validates nothing when [type] is one of the filtered names, stores the
    wire name [alchemy_newFullPendingTransactions] in
    [options.subscription.subscriptionName] before the original validator
    runs when [type] is one of the two full-pending names, and only runs the
    original validator otherwise. *)
Theorem validateArgs_sees_wire_name
    (oldValidateArgs : Method X) (type : string)
    (subscription : option Obj) (x : X) (args : list value) :
  let this := mkSubscription (wireName type) subscription x in
  includes filtered_names (wireName type) = includes filtered_names type
  /\ includes full_names (wireName type) = includes full_names type
  /\ (lookup_alias alias_table type = None <->
      includes filtered_names type || includes full_names type = false)
  /\ validateArgs oldValidateArgs this args
     = if includes filtered_names type then (Normal tt, this)
       else if includes full_names type then
         oldValidateArgs
           (mkSubscription (wireName type)
              (option_map
                 (fun s =>
                    set s "subscriptionName"
                      (VStr "alchemy_newFullPendingTransactions"))
                 subscription)
              x)
           args
       else oldValidateArgs this args.
Proof.
  intros this. subst this.
  destruct (String.eqb_spec type "alchemy_fullPendingTransactions") as [->|N1].
  { repeat split; try discriminate; destruct subscription; reflexivity. }
  destruct (String.eqb_spec type "alchemy_newFullPendingTransactions")
    as [->|N2].
  { repeat split; try discriminate; destruct subscription; reflexivity. }
  destruct (String.eqb_spec type "alchemy_filteredNewFullPendingTransactions")
    as [->|N3].
  { repeat split; try discriminate; reflexivity. }
  destruct (String.eqb_spec type "alchemy_filteredPendingTransactions")
    as [->|N4].
  { repeat split; try discriminate; reflexivity. }
  destruct (String.eqb_spec type "alchemy_filteredFullPendingTransactions")
    as [->|N5].
  { repeat split; try discriminate; reflexivity. }
  apply eqb_neq_both in N1 as [A1 B1], N2 as [A2 B2], N3 as [A3 B3],
      N4 as [A4 B4], N5 as [A5 B5].
  assert (Hw : wireName type = type).
  { unfold wireName, alias_table, lookup_alias.
    now rewrite B1, B2, B3, B4, B5. }
  assert (Hl : lookup_alias alias_table type = None).
  { unfold alias_table, lookup_alias. now rewrite B1, B2, B3, B4, B5. }
  assert (Hf : includes filtered_names type = false).
  { unfold includes, filtered_names, existsb. now rewrite A3, A4, A5. }
  assert (Hu : includes full_names type = false).
  { unfold includes, full_names, existsb. now rewrite A1, A2. }
  unfold validateArgs. cbn [subscriptionMethod].
  rewrite Hw, Hl, Hf, Hu. repeat split; reflexivity.
Qed.

End ValidateArgsExtras.

(* ================================================================== *)
(** * Further properties: configuration *)
(* ================================================================== *)

Section ConfigExtras.

Import Config.

Context {Provider Middleware : Type}.

(** X11: filling in defaults is stable.  A full configuration, given back
    as the configuration in the same environment, comes out as it is; and
    when [writeProvider] is set (to a provider or to [null]) the window
    plays no part. *)
Theorem fillInConfigDefaults_stable
    (window window' : option (EthereumWindow Provider))
    (config : option (AlchemyWeb3Config Provider Middleware)) :
  let full := fillInConfigDefaults window config in
  fillInConfigDefaults window (Some (asConfig full)) = full
  /\ (writeProvider full <> PUndefined ->
      fillInConfigDefaults window' (Some (asConfig full)) = full).
Proof.
  destruct config as [[wp ms mr ri rj]|]; cbn.
  - destruct wp; destruct window as [[e]|]; cbn;
      try destruct e; split; try reflexivity; intros H;
      try reflexivity; try (now destruct H).
  - destruct window as [[e]|]; cbn;
      try destruct e; split; try reflexivity; intros H;
      try reflexivity; try (now destruct H).
Qed.

End ConfigExtras.

Section ConfigExtrasWitness.

Import Config.

Lemma fillInConfigDefaults_stable_witness :
  writeProvider (fillInConfigDefaults (Provider := unit) (Middleware := unit)
                   None None) <> PUndefined
  /\ fillInConfigDefaults (Some (mkWindow (PProvider tt)))
       (Some (asConfig (fillInConfigDefaults (Middleware := unit) None None)))
     = fillInConfigDefaults None None.
Proof.
  assert (H : writeProvider
                (fillInConfigDefaults (Provider := unit) (Middleware := unit)
                   None None) <> PUndefined) by discriminate.
  split; [exact H|].
  exact (proj2 (fillInConfigDefaults_stable None
                  (Some (mkWindow (PProvider tt))) None) H).
Defined.

End ConfigExtrasWitness.

(* ================================================================== *)
(** * Further properties: token balances *)
(* ================================================================== *)

Section TokenBalanceExtras.

Import TokenBalances.

Variable decodeParameter : string -> value -> value.

Lemma update_get (o : Obj) (k : string) : update o k (get o k) = o.
Proof.
  induction o as [|[k' v'] o IH]; simpl; [reflexivity|].
  destruct (String.eqb k' k); [reflexivity | now rewrite IH].
Qed.

(** Assigning to a property the value it has leaves the object as it is. *)
Lemma set_get (o : Obj) (k : string) :
  has o k = true -> set o k (get o k) = o.
Proof. unfold set. intros ->. apply update_get. Qed.

Lemma map_throwing_unchanged (balances : list value) :
  (forall b, In b balances ->
     exists fields,
       b = VObj fields /\ notNullish (get fields "tokenBalance") = false) ->
  map_throwing (fixBalance decodeParameter) balances = Normal balances.
Proof.
  induction balances as [|b balances IH]; intros H; cbn [map_throwing];
    [reflexivity|].
  destruct (H b (or_introl eq_refl)) as (fields & -> & E).
  unfold fixBalance at 1. rewrite E.
  rewrite IH; [reflexivity|]. intros b' Hb'. apply H. now right.
Qed.

(** X12: a response in which no entry has a [tokenBalance] to decode (all
    are [null] or missing, or there is no entry at all) comes back as it
    is. *)
Theorem processTokenBalanceResponse_nothing_to_decode
    (rawResponse : Obj) (balances : list value) :
  get rawResponse "tokenBalances" = VArr balances ->
  (forall b, In b balances ->
     exists fields,
       b = VObj fields /\ notNullish (get fields "tokenBalance") = false) ->
  processTokenBalanceResponse decodeParameter rawResponse = Normal rawResponse.
Proof.
  intros E H. unfold processTokenBalanceResponse. rewrite E.
  rewrite map_throwing_unchanged by exact H.
  unfold spread_with. rewrite <- E. rewrite set_get; [reflexivity|].
  apply notNullish_has. now rewrite E.
Qed.

Lemma fixBalance_throws (b : value) :
  (b = VNull \/ b = VUndefined ->
   fixBalance decodeParameter b = Throw TypeError)
  /\ (b <> VNull -> b <> VUndefined ->
      exists b', fixBalance decodeParameter b = Normal b').
Proof.
  split.
  - intros [->| ->]; reflexivity.
  - intros H1 H2. destruct b; try congruence; simpl; eauto.
    destruct (notNullish _); eauto.
Qed.

Lemma map_throwing_cases (balances : list value) :
  (In VNull balances \/ In VUndefined balances ->
   map_throwing (fixBalance decodeParameter) balances = Throw TypeError)
  /\ (~ In VNull balances -> ~ In VUndefined balances ->
      exists fixed,
        map_throwing (fixBalance decodeParameter) balances = Normal fixed).
Proof.
  induction balances as [|b balances [IHt IHn]]; cbn [map_throwing].
  - split; [intros [[]|[]] | eauto].
  - split.
    + intros H.
      destruct (fixBalance_throws b) as [Ht Hn].
      assert (D : b = VNull \/ b = VUndefined \/ (b <> VNull /\ b <> VUndefined)).
      { destruct b; auto; right; right; split; discriminate. }
      destruct D as [Hb|[Hb|[H1 H2]]].
      * rewrite Ht by auto. reflexivity.
      * rewrite Ht by auto. reflexivity.
      * destruct (Hn H1 H2) as [b' ->]. rewrite IHt; [reflexivity|].
        simpl in H. destruct H as [[H|H]|[H|H]]; auto; congruence.
    + intros H1 H2. simpl in H1, H2.
      destruct (fixBalance_throws b) as [_ Hn].
      destruct Hn as [b' ->]; [intuition congruence..|].
      destruct IHn as [fixed ->]; [tauto..|]. eauto.
Qed.


End TokenBalanceExtras.

Section TokenBalanceExtrasWitness.

Import TokenBalances.

Lemma processTokenBalanceResponse_nothing_to_decode_witness :
  let rawResponse :=
    [ ("address", VStr "0xabc");
      ("tokenBalances",
       VArr [VObj [("contractAddress", VStr "0x02"); ("tokenBalance", VNull)]]) ] in
  processTokenBalanceResponse sample_decoder rawResponse = Normal rawResponse.
Proof.
  intros rawResponse.
  apply (processTokenBalanceResponse_nothing_to_decode sample_decoder
           rawResponse
           [VObj [("contractAddress", VStr "0x02"); ("tokenBalance", VNull)]]
           eq_refl).
  intros b [<-|[]]. eexists. split; reflexivity.
Defined.

End TokenBalanceExtrasWitness.

(* ================================================================== *)
(** * Further properties: the Alchemy methods *)
(* ================================================================== *)

Section ApiExtras.

Import Bridge Api.

Variable formatBlock : value -> value.
Variable toHex : value -> value.

(** X14: the object that [getAssetTransfers] sends has every property of
    [params] but [fromBlock], [toBlock] and [maxCount] as it was; these
    three are always present in it: formatted when [params] holds a value
    for them, [undefined] when it holds [null], [undefined] or nothing; and
    it is a well-formed object when [params] is. *)
Theorem assetTransfersParams_frame (params : Obj) :
  let sent := assetTransfersParams formatBlock toHex params in
  (forall k, k <> "fromBlock" -> k <> "toBlock" -> k <> "maxCount" ->
             get sent k = get params k)
  /\ get sent "fromBlock"
     = (if notNullish (get params "fromBlock")
        then formatBlock (get params "fromBlock") else VUndefined)
  /\ get sent "toBlock"
     = (if notNullish (get params "toBlock")
        then formatBlock (get params "toBlock") else VUndefined)
  /\ get sent "maxCount"
     = (if notNullish (get params "maxCount")
        then toHex (get params "maxCount") else VUndefined)
  /\ (forall k, In k (keys sent) <->
                In k ["fromBlock"; "toBlock"; "maxCount"] \/ In k (keys params))
  /\ (well_formed params -> well_formed sent).
Proof.
  intros sent. unfold sent, assetTransfersParams, spread_with, formatted.
  split; [|split; [|split; [|split; [|split]]]].
  - intros k H1 H2 H3. now rewrite !get_set_other by assumption.
  - rewrite !get_set_other by discriminate. apply get_set_same.
  - rewrite get_set_other by discriminate. apply get_set_same.
  - apply get_set_same.
  - intros k. rewrite !In_keys_set. simpl. intuition.
  - intros WF. now repeat apply well_formed_set.
Qed.

End ApiExtras.

Section ApiExtrasWitness.

Import Api.

Lemma assetTransfersParams_frame_witness :
  let params := [("fromAddress", VStr "0x01"); ("toBlock", VNull)] in
  well_formed params
  /\ assetTransfersParams (fun b => b) (fun n => n) params
     = [ ("fromAddress", VStr "0x01"); ("toBlock", VUndefined);
         ("fromBlock", VUndefined); ("maxCount", VUndefined) ]
  /\ well_formed (assetTransfersParams (fun b => b) (fun n => n) params).
Proof.
  intros params.
  assert (WF : well_formed params).
  { unfold well_formed. simpl. apply ordered_cons.
    - simpl. intuition discriminate.
    - intros k' [<-|[]]. exact I.
    - apply ordered_cons; [simpl; tauto | intros k' [] | apply ordered_nil]. }
  split; [exact WF|]. split; [reflexivity|].
  destruct (assetTransfersParams_frame (fun b => b) (fun n => n) params)
    as (_ & _ & _ & _ & _ & H).
  exact (H WF).
Defined.

End ApiExtrasWitness.

(* ================================================================== *)
(** * Further properties: the promise/callback bridge *)
(* ================================================================== *)

Section BridgeExtras.

Import Bridge Api TokenBalances.

Context {S : Type}.

Variable decodeParameter : string -> value -> value.


End BridgeExtras.

Section BridgeExtrasWitness.

Import Bridge Api TokenBalances.


End BridgeExtrasWitness.

Section InterleavingFacts.

Import Bridge.

Context {S : Type}.

Lemma nth_error_replace_same (cells : list (cell S)) (p : nat) (c c' : cell S) :
  nth_error cells p = Some c' ->
  nth_error (replace_cell S cells p c) p = Some c.
Proof.
  revert p; induction cells as [|c0 cells IH]; intros [|p] H; simpl in *;
    try discriminate; auto.
Qed.

Lemma nth_error_replace_other (cells : list (cell S)) (p q : nat) (c : cell S) :
  p <> q ->
  nth_error (replace_cell S cells p c) q = nth_error cells q.
Proof.
  revert p q; induction cells as [|c0 cells IH]; intros [|p] [|q] H; simpl;
    try reflexivity; try congruence.
  apply IH. congruence.
Qed.

(** A request settles in a loop at rest where the promise [p] waits with the
    callback and the promise [q] of the request with the rest of the
    [async] body: two jobs run, and no other promise is touched. *)
Lemma settles_in_place (l : Loop S) (p q : nat)
    (callback : Web3Callback S) (processResponse : Processor)
    (s : settlement) (fuel : nat) :
  at_rest l -> p <> q ->
  nth_error (promises l) p = Some (mkCell S None [WhenDone S callback]) ->
  nth_error (promises l) q
  = Some (mkCell S None [AsyncReturn S processResponse p]) ->
  let settled :=
    match s with
    | Fulfilled result => settle_with (processResponse result)
    | Rejected error => Rejected error
    end in
  drain (2 + fuel) (settle q s l)
  = mkLoop
      (replace_cell S
         (replace_cell S (promises l) q (mkCell S (Some s) []))
         p (mkCell S (Some settled) []))
      []
      (trace l
         ++ [ EvSettled q s; EvSettled p settled;
              EvCallback (fst (callback_arguments settled))
                (snd (callback_arguments settled)) ])
      (snd (callback (fst (callback_arguments settled))
              (snd (callback_arguments settled)) (host l))).
Proof.
  intros Hrest Hpq Hp Hq settled. unfold at_rest in Hrest.
  unfold settle at 1. rewrite Hq. cbn [state reactions]. rewrite Hrest.
  cbn [map app Nat.add drain jobs promises trace host].
  assert (Hp' : nth_error
                  (replace_cell S (promises l) q (mkCell S (Some s) [])) p
                = Some (mkCell S None [WhenDone S callback])).
  { rewrite nth_error_replace_other by congruence. exact Hp. }
  assert (Hsettle : forall o,
    settle p o
      (mkLoop (replace_cell S (promises l) q (mkCell S (Some s) [])) []
         (trace l ++ [EvSettled q s]) (host l))
    = mkLoop
        (replace_cell S
           (replace_cell S (promises l) q (mkCell S (Some s) []))
           p (mkCell S (Some o) []))
        [(WhenDone S callback, o)]
        ((trace l ++ [EvSettled q s]) ++ [EvSettled p o])
        (host l)).
  { intros o. unfold settle. cbn [promises jobs trace host].
    rewrite Hp'. reflexivity. }
  assert (Hjob :
    run_job S (AsyncReturn S processResponse p, s)
      (mkLoop (replace_cell S (promises l) q (mkCell S (Some s) [])) []
         (trace l ++ [EvSettled q s]) (host l))
    = mkLoop
        (replace_cell S
           (replace_cell S (promises l) q (mkCell S (Some s) []))
           p (mkCell S (Some settled) []))
        [(WhenDone S callback, settled)]
        ((trace l ++ [EvSettled q s]) ++ [EvSettled p settled])
        (host l)).
  { unfold run_job, settled. destruct s; apply Hsettle. }
  rewrite Hjob. cbn [jobs promises trace host].
  unfold run_job, invoke. cbn [promises jobs trace host].
  destruct settled; cbn [callback_arguments fst snd];
    rewrite <- !app_assoc; destruct fuel; reflexivity.
Qed.

End InterleavingFacts.

Section InterleavingExtras.

Import Bridge.

Context {S : Type}.

Lemma nth_error_after (cells more : list (cell S)) (i k : nat) :
  k = length cells + i ->
  nth_error (cells ++ more) k = nth_error more i.
Proof.
  intros ->. rewrite nth_error_app2 by lia. f_equal. lia.
Qed.

(** X16: two calls do not interfere, and the callbacks come in the order
    in which the requests settle.  Call A, then call B; let the request of B
    settle first and that of A after it.  Then each request went out once,
    in the order of the calls; B's promise settles and B's callback is
    called, once, while A's promise is still pending; then A's promise
    settles and A's callback is called, once; each promise settles as its
    own request and its own [processResponse] make it. *)
Theorem calls_do_not_interfere
    (methodA methodB : string) (paramsA paramsB : list value)
    (callbackA callbackB : option (Web3Callback S))
    (processA processB : option Processor)
    (l : Loop S) (sA sB : settlement) (fuel : nat) :
  at_rest l ->
  let callA :=
    callAlchemyJsonRpcMethod methodA paramsA callbackA processA l in
  let callB :=
    callAlchemyJsonRpcMethod methodB paramsB callbackB processB (snd callA) in
  let a := fst callA in
  let b := fst callB in
  let afterB := drain (2 + fuel) (settle (Datatypes.S b) sB (snd callB)) in
  let afterA := drain (2 + fuel) (settle (Datatypes.S a) sA afterB) in
  let outA := outcome processA sA in
  let outB := outcome processB sB in
  a <> b
  /\ status afterB a = None
  /\ status afterB b = Some outB
  /\ trace afterA
     = trace l
         ++ [ EvSend methodA paramsA; EvSend methodB paramsB;
              EvSettled (Datatypes.S b) sB; EvSettled b outB;
              EvCallback (fst (callback_arguments outB))
                (snd (callback_arguments outB));
              EvSettled (Datatypes.S a) sA; EvSettled a outA;
              EvCallback (fst (callback_arguments outA))
                (snd (callback_arguments outA)) ]
  /\ status afterA a = Some outA
  /\ status afterA b = Some outB
  /\ jobs afterA = [].
Proof.
  intros Hrest callA callB a b afterB afterA outA outB.
  set (cbA := Config.orDefault callbackA (noop (S := S))).
  set (cbB := Config.orDefault callbackB (noop (S := S))).
  set (prA := Config.orDefault processA identity).
  set (prB := Config.orDefault processB identity).
  set (n := length (promises l)).
  set (lA := registered (EvSend methodA paramsA) cbA prA l).
  set (lB := registered (EvSend methodB paramsB) cbB prB lA).
  assert (EA : callA = (n, lA)).
  { unfold callA, callAlchemyJsonRpcMethod, send. now rewrite registers. }
  assert (LA : length (promises lA) = 2 + n).
  { unfold lA, registered. cbn [promises]. rewrite length_app. simpl.
    fold n. lia. }
  assert (EB : callB = (2 + n, lB)).
  { unfold callB. rewrite EA. cbn [snd].
    unfold callAlchemyJsonRpcMethod, send. rewrite registers.
    now rewrite LA. }
  assert (Ea : a = n) by (unfold a; now rewrite EA).
  assert (Eb : b = 2 + n) by (unfold b; now rewrite EB).
  assert (PB : promises lB
               = promises l
                   ++ [ mkCell S None [WhenDone S cbA];
                        mkCell S None [AsyncReturn S prA n];
                        mkCell S None [WhenDone S cbB];
                        mkCell S None [AsyncReturn S prB (2 + n)] ]).
  { unfold lB, registered at 1. cbn [promises]. rewrite LA.
    unfold lA, registered. cbn [promises]. fold n.
    now rewrite <- app_assoc. }
  assert (N0 : nth_error (promises lB) n
               = Some (mkCell S None [WhenDone S cbA])).
  { rewrite PB. now rewrite (nth_error_after (promises l) _ 0) by (unfold n; lia). }
  assert (N1 : nth_error (promises lB) (1 + n)
               = Some (mkCell S None [AsyncReturn S prA n])).
  { rewrite PB. now rewrite (nth_error_after (promises l) _ 1) by (unfold n; lia). }
  assert (N2 : nth_error (promises lB) (2 + n)
               = Some (mkCell S None [WhenDone S cbB])).
  { rewrite PB. now rewrite (nth_error_after (promises l) _ 2) by (unfold n; lia). }
  assert (N3 : nth_error (promises lB) (3 + n)
               = Some (mkCell S None [AsyncReturn S prB (2 + n)])).
  { rewrite PB. now rewrite (nth_error_after (promises l) _ 3) by (unfold n; lia). }
  assert (RB : at_rest lB) by exact Hrest.
  assert (HB : afterB
               = mkLoop
                   (replace_cell S
                      (replace_cell S (promises lB) (3 + n)
                         (mkCell S (Some sB) []))
                      (2 + n) (mkCell S (Some outB) []))
                   []
                   (trace lB
                      ++ [ EvSettled (3 + n) sB; EvSettled (2 + n) outB;
                           EvCallback (fst (callback_arguments outB))
                             (snd (callback_arguments outB)) ])
                   (snd (cbB (fst (callback_arguments outB))
                           (snd (callback_arguments outB)) (host lB)))).
  { unfold afterB. rewrite Eb, EB. cbn [snd].
    change (Datatypes.S (2 + n)) with (3 + n).
    rewrite (settles_in_place lB (2 + n) (3 + n) cbB prB sB fuel RB)
      by (try lia; assumption).
    unfold outB, outcome. fold prB. destruct sB; reflexivity. }
  assert (M0 : nth_error (promises afterB) n
               = Some (mkCell S None [WhenDone S cbA])).
  { rewrite HB. cbn [promises].
    rewrite !nth_error_replace_other by lia. exact N0. }
  assert (M1 : nth_error (promises afterB) (1 + n)
               = Some (mkCell S None [AsyncReturn S prA n])).
  { rewrite HB. cbn [promises].
    rewrite !nth_error_replace_other by lia. exact N1. }
  assert (M2 : nth_error (promises afterB) (2 + n)
               = Some (mkCell S (Some outB) [])).
  { rewrite HB. cbn [promises].
    apply nth_error_replace_same
      with (c' := mkCell S None [WhenDone S cbB]).
    rewrite nth_error_replace_other by lia. exact N2. }
  assert (RA : at_rest afterB) by (rewrite HB; reflexivity).
  assert (HA : afterA
               = mkLoop
                   (replace_cell S
                      (replace_cell S (promises afterB) (1 + n)
                         (mkCell S (Some sA) []))
                      n (mkCell S (Some outA) []))
                   []
                   (trace afterB
                      ++ [ EvSettled (1 + n) sA; EvSettled n outA;
                           EvCallback (fst (callback_arguments outA))
                             (snd (callback_arguments outA)) ])
                   (snd (cbA (fst (callback_arguments outA))
                           (snd (callback_arguments outA)) (host afterB)))).
  { unfold afterA. rewrite Ea.
    change (Datatypes.S n) with (1 + n).
    rewrite (settles_in_place afterB n (1 + n) cbA prA sA fuel RA)
      by (try lia; assumption).
    unfold outA, outcome. fold prA. destruct sA; reflexivity. }
  rewrite Ea, Eb.
  split; [lia|]. split; [unfold status; now rewrite M0|].
  split; [unfold status; now rewrite M2|]. split; [|split; [|split]].
  - rewrite HA. cbn [trace]. rewrite HB. cbn [trace].
    unfold lB, registered at 1. cbn [trace].
    unfold lA, registered. cbn [trace].
    rewrite <- !app_assoc. reflexivity.
  - unfold status. rewrite HA. cbn [promises].
    erewrite nth_error_replace_same; [reflexivity|].
    rewrite nth_error_replace_other by lia. exact M0.
  - unfold status. rewrite HA. cbn [promises].
    rewrite !nth_error_replace_other by lia. now rewrite M2.
  - rewrite HA. reflexivity.
Qed.

End InterleavingExtras.

Section InterleavingWitness.

Import Bridge.

Lemma calls_do_not_interfere_witness :
  at_rest (empty_loop 0)
  /\ host
       (drain 2
          (settle 1 (Fulfilled (VNum 1))
             (drain 2
                (settle 3 (Rejected (VStr "timeout"))
                   (snd (callAlchemyJsonRpcMethod "alchemy_getTokenMetadata"
                           [VStr "0x02"] (Some counting_callback) None
                           (snd (callAlchemyJsonRpcMethod
                                   "alchemy_getTokenAllowance" [VNull]
                                   (Some counting_callback) None
                                   (empty_loop 0)))))))))
     = 2
  /\ 0 <> 2.
Proof.
  split; [reflexivity|]. split; [reflexivity|].
  exact (proj1 (calls_do_not_interfere
                  "alchemy_getTokenAllowance" "alchemy_getTokenMetadata"
                  [VNull] [VStr "0x02"]
                  (Some counting_callback) (Some counting_callback) None None
                  (empty_loop 0) (Fulfilled (VNum 1))
                  (Rejected (VStr "timeout")) 0 eq_refl)).
Defined.

End InterleavingWitness.

(* ================================================================== *)
(** * Further properties: warnings during a subscription *)
(* ================================================================== *)

Section WarningExtras.

Import Subscriptions.

Context {S H : Type}.

Variable host_warn : nat -> list value -> Code S value.

Lemma aliased_lookup (type : string) :
  In type public_names ->
  exists wire, lookup_alias alias_table type = Some wire.
Proof.
  unfold public_names, alias_table. simpl.
  intros [<-|[<-|[<-|[<-|[<-|[]]]]]]; eexists; reflexivity.
Qed.

(** X17: for each of the five names it rewrites, the patched [subscribe]
    leaves [console.warn] as it found it, whatever the underlying subscribe
    does to it and whether that returns or throws; the completion of the
    underlying subscribe, run with the wire name under the filtering
    closure, is handed on as it is. *)
Theorem subscribe_restores_console_warn
    (oldSubscribe : string -> list value -> Code S H)
    (type : string) (rest : list value) (w : World S) :
  In type [ "alchemy_fullPendingTransactions";
            "alchemy_newFullPendingTransactions";
            "alchemy_filteredNewFullPendingTransactions";
            "alchemy_filteredPendingTransactions";
            "alchemy_filteredFullPendingTransactions" ] ->
  let during := set_console_warn w (Suppressing (console_warn w)) in
  console_warn (snd (subscribe oldSubscribe type rest w)) = console_warn w
  /\ fst (subscribe oldSubscribe type rest w)
     = fst (oldSubscribe (wireName type) rest during)
  /\ host (snd (subscribe oldSubscribe type rest w))
     = host (snd (oldSubscribe (wireName type) rest during)).
Proof.
  intros Hin during.
  destruct (aliased_lookup type Hin) as [wire E].
  rewrite subscribe_lookup. unfold wireName. rewrite E.
  unfold suppressNoSubscriptionExistsWarning. fold during.
  destruct (oldSubscribe wire rest during) as [r w2]. repeat split.
Qed.

(** X18: a warning with the text, raised by the underlying subscribe
    while one of the five names is being subscribed, has no effect at all:
    the patched [subscribe] behaves as if the underlying subscribe had not
    warned.  For a type outside the five the same warning goes to
    [console.warn] as ever. *)
Theorem subscribe_swallows_warning
    (oldSubscribe : string -> list value -> Code S H)
    (args : list value) (type : string) (rest : list value) :
  isNoSubscriptionWarning args = true ->
  let warning name rest :=
    warning_then host_warn args (oldSubscribe name rest) in
  (In type public_names ->
   forall w, subscribe warning type rest w = subscribe oldSubscribe type rest w)
  /\ (~ In type public_names ->
      subscribe warning type rest
      = warning_then host_warn args (oldSubscribe type rest)).
Proof.
  intros Hargs warning. split.
  - intros Hin w. destruct (aliased_lookup type Hin) as [wire E].
    rewrite !subscribe_lookup, E.
    unfold suppressNoSubscriptionExistsWarning, warning, warning_then.
    cbn [console_warn set_console_warn call_warn]. now rewrite Hargs.
  - intros Hout. rewrite subscribe_lookup.
    now rewrite lookup_alias_None by exact Hout.
Qed.

End WarningExtras.

Section WarningWitnesses.

Import Subscriptions.

Lemma subscribe_restores_console_warn_witness :
  In "alchemy_filteredPendingTransactions"
     [ "alchemy_fullPendingTransactions";
       "alchemy_newFullPendingTransactions";
       "alchemy_filteredNewFullPendingTransactions";
       "alchemy_filteredPendingTransactions";
       "alchemy_filteredFullPendingTransactions" ]
  /\ console_warn
       (snd (subscribe (H := unit)
               (fun _ _ w => (Throw VNull, set_console_warn w (HostWarn 7)))
               "alchemy_filteredPendingTransactions" []
               (mkWorld (HostWarn 0) tt)))
     = HostWarn 0.
Proof.
  assert (Hin : In "alchemy_filteredPendingTransactions"
                  [ "alchemy_fullPendingTransactions";
                    "alchemy_newFullPendingTransactions";
                    "alchemy_filteredNewFullPendingTransactions";
                    "alchemy_filteredPendingTransactions";
                    "alchemy_filteredFullPendingTransactions" ])
    by (simpl; tauto).
  split; [exact Hin|].
  exact (proj1 (subscribe_restores_console_warn (H := unit)
                  (fun _ _ w => (Throw VNull, set_console_warn w (HostWarn 7)))
                  "alchemy_filteredPendingTransactions" []
                  (mkWorld (HostWarn 0) tt) Hin)).
Defined.

Lemma subscribe_swallows_warning_witness :
  isNoSubscriptionWarning
    [VStr "Subscription alchemy_newFullPendingTransactions doesn't exist. Subscribing anyway."]
  = true
  /\ In "alchemy_fullPendingTransactions" public_names
  /\ subscribe
       (fun name rest =>
          warning_then (fun _ _ w => (Normal VUndefined, mkWorld (console_warn w) (Datatypes.S (host w))))
            [VStr "Subscription alchemy_newFullPendingTransactions doesn't exist. Subscribing anyway."]
            (fun w => (Normal name, w)))
       "alchemy_fullPendingTransactions" [] (mkWorld (HostWarn 0) 0)
     = (Normal "alchemy_newFullPendingTransactions", mkWorld (HostWarn 0) 0).
Proof.
  assert (Hin : In "alchemy_fullPendingTransactions" public_names)
    by (simpl; tauto).
  split; [reflexivity|]. split; [exact Hin|].
  rewrite (proj1 (subscribe_swallows_warning
                    (fun _ _ w => (Normal VUndefined,
                                   mkWorld (console_warn w) (Datatypes.S (host w))))
                    (fun name _ w => (Normal name, w))
                    [VStr "Subscription alchemy_newFullPendingTransactions doesn't exist. Subscribing anyway."]
                    "alchemy_fullPendingTransactions" [] eq_refl) Hin).
  reflexivity.
Defined.

End WarningWitnesses.
